(** * Trace-based validation harness of the agreement state machines

    A shallow embedding of [agreement/state_machine_test.go]: traces of
    events, the direct-match safety property, the two automaton adapters
    (single listener, and router/player network) and the deterministic
    test-case validator, followed by the properties proved about them.

    Conventions of the embedding.
    - A Go interface value that may be [nil] is an [option]; calling a
      method on [nil] panics.
    - A Go function that may panic returns a [result]; a panic that is not
      recovered aborts the caller (the bind of the monad).
    - A value recovered from a panic is never [nil] (Go 1.21 and later turn
      [panic(nil)] into a run-time error value); it is represented by its
      rendering under the [%v] verb.
    - Each [fmt.Errorf] site is one constructor of [error_val]; the
      arguments of the format string are the constructor's arguments.
    - Redirecting the shared logger ([logging.Base().SetOutput]) does not
      change any computed value and is left out. *)

From stdpp Require Import base option list strings pretty.
From Stdlib Require Import Lia.

(** ** Panics *)

Inductive result (X : Type) : Type :=
| Ok (x : X)
| Panic (r : string).
Arguments Ok {X} x.
Arguments Panic {X} r.

Global Instance result_ret : MRet result := λ _ x, Ok x.
Global Instance result_bind : MBind result := λ _ _ f m,
  match m with
  | Ok x => f x
  | Panic r => Panic r
  end.

(** What a call that runs under a deferred [recover()] is observed to do. *)
Inductive outcome (X : Type) : Type :=
| Returns (x : X)
| Panics (r : string).
Arguments Returns {X} x.
Arguments Panics {X} r.

Definition nilDereference : string :=
  "runtime error: invalid memory address or nil pointer dereference".
Definition indexOutOfRange : string := "runtime error: index out of range".
Definition sliceOutOfRange : string := "runtime error: slice bounds out of range".

(** [l[i]] *)
Definition index {X} (l : list X) (i : nat) : result X :=
  match l !! i with
  | Some x => Ok x
  | None => Panic indexOutOfRange
  end.

(** [l[i] = x] *)
Definition assign {X} (l : list X) (i : nat) (x : X) : result (list X) :=
  if decide (i < length l) then Ok (<[i:=x]> l) else Panic indexOutOfRange.

(** [l[n:]] *)
Definition sliceFrom {X} (l : list X) (n : nat) : result (list X) :=
  if decide (n ≤ length l) then Ok (drop n l) else Panic sliceOutOfRange.

(** A slice handed to a variadic parameter: [None] is the [nil] slice, which
    is what a call without arguments passes; [make] and a call with
    arguments pass a slice that is not [nil]. *)
Definition slice (X : Type) : Type := option (list X).

(** ** Events and actions *)

(** [eventType], with the constants in the order of [eventtype_string.go]. *)
Inductive eventType : Set :=
| none | votePresent | payloadPresent | bundlePresent
| voteVerified | payloadVerified | bundleVerified
| roundInterruption | timeout | fastTimeout | speculationTimeout
| softThreshold | certThreshold | nextThreshold
| proposalCommittable | proposalAccepted
| voteFiltered | voteMalformed | bundleFiltered | bundleMalformed
| payloadRejected | payloadMalformed | payloadPipelined | payloadAccepted
| proposalFrozen | voteAccepted | newRound | newPeriod
| readStaging | readPinned | readLowestValue | readLowestPayload
| voteFilterRequest | voteFilteredStep
| nextThresholdStatusRequest | nextThresholdStatus
| freshestBundleRequest | freshestBundle
| dumpVotesRequest | dumpVotes
| wrappedAction | checkpointReached.

Global Instance eventType_eq_dec : EqDecision eventType.
Proof. solve_decision. Defined.

(** A concrete event, seen through the methods of the [event] interface
    that the harness calls: [t()], [String()] and [ComparableStr()]. *)
Record eventObj : Set := mkEvent {
  evt : eventType;
  evString : string;
  ComparableStr : string;
}.

(** An [event] interface value; [None] is [nil]. *)
Definition event : Set := option eventObj.

(** [e.ComparableStr()] on an interface value. *)
Definition event_ComparableStr (e : event) : result string :=
  match e with
  | Some o => Ok (ComparableStr o)
  | None => Panic nilDereference
  end.

(** [e.t()] on an interface value. *)
Definition event_t (e : event) : result eventType :=
  match e with
  | Some o => Ok (evt o)
  | None => Panic nilDereference
  end.

(** The methods of the [action] interface that the harness calls. *)
Record action : Set := mkAction {
  action_String : string;
  action_ComparableStr : string;
}.

(** [ev(a)]: [wrappedActionEvent{a}]. *)
Definition ev (a : action) : event :=
  Some {| evt := wrappedAction;
          evString := action_String a;
          ComparableStr := action_ComparableStr a |}.

(** ** Traces *)

Record ioTrace : Set := mkTrace { events : list event }.

(** [ioTrace{}] *)
Definition emptyTrace : ioTrace := {| events := [] |}.

(** ** Errors *)

Inductive error_val : Set :=
| errExtendNil
    (* "Cannot extend trace with nil event" *)
| errTraceContainsNil
    (* "Trace contains nil event" *)
| errMalformedTestCase
    (* "Malformed test case: either inputs and outputs must be same length,
       or inputs should be one longer than outputs" *)
| errOutputsNil (err : error_val)
    (* "Outputs cannot contain nil events; %v" *)
| errIOTraceDiverge (expected actual : string)
    (* errIOTraceDiverge{expected, actual} *)
| errPanickedUnexpected (panicErr : error_val)
    (* "Panicked when we were not expecting it: %v" *)
| errDidNotPanic
    (* "Did not panic when we were expecting to" *)
| errInputSizeInconsistent (inputs expectedOutputs : list event)
    (* "Input size (%v) is inconsistent with output size (%v)" *)
| errPanickedEarly (outputTraceLen expectedLen : nat) (panicErr : error_val)
    (* "Panicked early: %d:%d:\t%v" *)
| errTraceTooShort (outputTraceLen expectedLen : nat)
                   (expectedFinalTrace outputTraceExtension : ioTrace)
    (* "Trace too short (%d:%d). %v %v" *)
| errSafetyPropEval
    (* "Error evaluating safety property %v" *)
| errNotInSafetyProp (msg : string)
    (* "Trace not in safety property: %v, %s" *)
| errHandlerPanic (r : string)
    (* callHandler: fmt.Errorf("%v", r) *)
| errSubmitTopPanic (r : string)
    (* callSubmitTop: fmt.Errorf("Panic: %v", r) *)
| errOther (msg : string).
    (* an error made outside this file *)

(** An [error] interface value; [None] is [nil]. *)
Definition error : Set := option error_val.

(** ** Operations on traces *)

Definition ioTrace_length (t : ioTrace) : nat := length (events t).

Definition ioTrace_extend (t : ioTrace) (eventsToAppend : slice event)
  : ioTrace * error :=
  match eventsToAppend with
  | None => (t, Some errExtendNil)
  | Some es => ({| events := events t ++ es |}, None)
  end.

Fixpoint checkWellFormed_loop (es : list event) : error :=
  match es with
  | [] => None
  | None :: _ => Some errTraceContainsNil
  | Some _ :: es' => checkWellFormed_loop es'
  end.

Definition ioTrace_checkWellFormed (t : ioTrace) : error :=
  checkWellFormed_loop (events t).

Definition truncateIOTrace : bool := false.

Definition tab : string := String (Ascii.ascii_of_nat 9) "".
Definition newline : string := String (Ascii.ascii_of_nat 10) "".

(** The loop of [String]: [i] is the index of the head of [es]. *)
Fixpoint String_loop (i : nat) (es : list event) (buf : string)
  : result string :=
  match es with
  | [] => Ok buf
  | e :: es' =>
      s ← event_ComparableStr e;
      let buf := buf +:+ tab +:+ s +:+ " |" in
      let buf := if Nat.even i then buf +:+ newline else buf in
      String_loop (S i) es' buf
  end.

Definition ioTrace_String (t : ioTrace) : result string :=
  let TruncLen := 500 in
  buf ← String_loop 0 (events t) ("{" +:+ newline);
  let buf := buf +:+ "}" +:+ newline in
  if negb truncateIOTrace then Ok buf
  else
    let l := String.length buf in
    let '(g, prepend) :=
      if decide (l < TruncLen) then (0, "")
      else (l - TruncLen, "(truncated...)" +:+ tab) in
    Ok (prepend +:+ String.substring g (l - g) buf).

(** [ContainsFn]: a comparison on a [nil] event panics. *)
Fixpoint ioTrace_ContainsFn_loop (compareFn : event → result bool)
    (es : list event) : result bool :=
  match es with
  | [] => Ok false
  | e :: es' =>
      b ← compareFn e;
      if b : bool then Ok true else ioTrace_ContainsFn_loop compareFn es'
  end.

Definition ioTrace_ContainsFn (t : ioTrace) (compareFn : event → result bool)
  : result bool :=
  ioTrace_ContainsFn_loop compareFn (events t).

Definition ioTrace_Contains (t : ioTrace) (e : event) : result bool :=
  ioTrace_ContainsFn t (λ b,
    x ← event_ComparableStr e;
    y ← event_ComparableStr b;
    Ok (bool_decide (x = y))).

Fixpoint ioTrace_countAction_loop (es : list event) (count : nat)
  : result nat :=
  match es with
  | [] => Ok count
  | e :: es' =>
      ty ← event_t e;
      ioTrace_countAction_loop es'
        (if decide (ty = wrappedAction) then S count else count)
  end.

Definition ioTrace_countAction (t : ioTrace) : result nat :=
  ioTrace_countAction_loop (events t) 0.

(** ** Safety properties *)

(** The [containsTrace] method of the [ioSafetyProp] interface:
    [(contains, info, err)]. *)
Record ioSafetyProp : Type := mkSafetyProp {
  containsTrace : ioTrace → result (bool * string * error);
}.

Definition ioPropAll : ioSafetyProp :=
  {| containsTrace := λ _, Ok (true, "", None) |}.

Record directMatchIoSafetyProp : Set := mkDirectMatch {
  directMatchTrace : ioTrace;
}.

(** The loop of [containsTrace], on the events from the current index [i]
    on: [trace] is the candidate, [ref] the reference trace.  The reference
    being exhausted is the test [i >= e.directMatchTrace.length()]. *)
Fixpoint directMatch_loop (trace ref : list event)
  : result (bool * string * error) :=
  match trace with
  | [] => Ok (true, "", None)
  | c :: trace' =>
      match ref with
      | [] => Ok (true, "", None)
      | r :: ref' =>
          a ← event_ComparableStr c;
          b ← event_ComparableStr r;
          if decide (a ≠ b) then Ok (false, "", None)
          else directMatch_loop trace' ref'
      end
  end.

Definition directMatch_containsTrace (e : directMatchIoSafetyProp)
    (trace : ioTrace) : result (bool * string * error) :=
  directMatch_loop (events trace) (events (directMatchTrace e)).

Definition directMatch (reference : ioTrace) : ioSafetyProp :=
  {| containsTrace :=
       directMatch_containsTrace {| directMatchTrace := reference |} |}.

(** ** The automaton interface *)

(** [ioAutomata] (with [ioTraceable]): the methods take the automaton and
    give back the automaton they leave behind. *)
Class ioAutomata (A : Type) : Type := {
  getTrace : A → result ioTrace;
  getTraceVisible : A → result ioTrace;
  resetTrace : A → result A;
  transition : A → event → result (A * (error * error));
  transitionAll : A → list event → result (A * (error * error));
}.

(** ** The single-listener adapter, [ioAutomataConcrete] *)

(** What a run of [listener.handle] does, as far as the adapter can see:
    it returns an event, or panics, or calls [dispatch] on the router handle
    it was given and goes on with the event that call returns.  [l] is the
    state the listener has reached at that point; [ctx] stands for the
    arguments of [dispatch] other than the event. *)
Inductive handlerRun (D L : Type) : Type :=
| Return (l : L) (out : event)
| Crash (l : L) (r : string)
| Dispatch (l : L) (ctx : D) (e : event) (k : event → handlerRun D L).
Arguments Return {D L} l out.
Arguments Crash {D L} l r.
Arguments Dispatch {D L} l ctx e k.

(** The [listener] interface: [handle(r, p, e)] on a listener in state
    [L], with player context [P]. *)
Class Listener (P D L : Type) : Type :=
  handle : L → P → event → handlerRun D L.

(** The [router] interface: [dispatch(t, state, e, src, dest, r, p, s)] on
    a router in state [R]. *)
Class Router (D R : Type) : Type :=
  router_dispatch : R → D → event → R * outcome event.

(** [&routerHandle{t: &tracer{...}, r: w}]: the handle whose router is the
    adapter itself. *)
Inductive routerHandle : Set := selfHandle.

Module Concrete.

Record ioAutomataConcrete (P L R : Type) : Type := mk {
  listener : L;
  routerCtx : R;
  playerCtx : P;
  savedHiddenTrace : ioTrace;   (* hides internal events *)
  savedTrace : ioTrace;
  rHandle : option routerHandle;
}.
Arguments mk {P L R}.
Arguments listener {P L R}.
Arguments routerCtx {P L R}.
Arguments playerCtx {P L R}.
Arguments savedHiddenTrace {P L R}.
Arguments savedTrace {P L R}.
Arguments rHandle {P L R}.

Section Methods.
Context {P D L R : Type} `{!Listener P D L, !Router D R}.

Local Abbreviation W := (ioAutomataConcrete P L R).

Definition set_listener (w : W) (l : L) : W :=
  mk l (routerCtx w) (playerCtx w) (savedHiddenTrace w) (savedTrace w)
     (rHandle w).
Definition set_routerCtx (w : W) (r : R) : W :=
  mk (listener w) r (playerCtx w) (savedHiddenTrace w) (savedTrace w)
     (rHandle w).
Definition set_savedHiddenTrace (w : W) (t : ioTrace) : W :=
  mk (listener w) (routerCtx w) (playerCtx w) t (savedTrace w) (rHandle w).
Definition set_savedTrace (w : W) (t : ioTrace) : W :=
  mk (listener w) (routerCtx w) (playerCtx w) (savedHiddenTrace w) t
     (rHandle w).
Definition set_rHandle (w : W) (h : option routerHandle) : W :=
  mk (listener w) (routerCtx w) (playerCtx w) (savedHiddenTrace w)
     (savedTrace w) h.

Definition getTrace (w : W) : ioTrace := savedHiddenTrace w.

Definition resetTrace (w : W) : W :=
  set_savedTrace (set_savedHiddenTrace w emptyTrace) emptyTrace.

Definition getTraceVisible (w : W) : ioTrace := savedTrace w.

(** The adapter as the router of its own handle: the event and the
    router's answer go on the visible trace; the errors of [extend] are
    dropped. *)
Definition dispatch (w : W) (ctx : D) (e : event) : W * outcome event :=
  let w := set_savedTrace w (ioTrace_extend (savedTrace w) (Some [e])).1 in
  let '(r, o) := router_dispatch (routerCtx w) ctx e in
  let w := set_routerCtx w r in
  match o with
  | Panics v => (w, Panics v)
  | Returns out =>
      (set_savedTrace w (ioTrace_extend (savedTrace w) (Some [out])).1,
       Returns out)
  end.

(** The call of [w.listener.handle] on the adapter's own handle: every
    [dispatch] of the handle goes through the adapter, and a panic of the
    router unwinds through the handler. *)
Fixpoint runHandler (p : handlerRun D L) (w : W) : W * outcome event :=
  match p with
  | Return l out => (set_listener w l, Returns out)
  | Crash l v => (set_listener w l, Panics v)
  | Dispatch l ctx e k =>
      let '(w, o) := dispatch (set_listener w l) ctx e in
      match o with
      | Returns out => runHandler (k out) w
      | Panics v => (w, Panics v)
      end
  end.

(** [if w.rHandle == nil { w.rHandle = &routerHandle{...} }] *)
Definition withHandle (w : W) : W :=
  match rHandle w with
  | None => set_rHandle w (Some selfHandle)
  | Some _ => w
  end.

(** [(outEvent, panicErr)]: the deferred function turns a panic into
    [panicErr] and leaves [outEvent] at its zero value. *)
Definition callHandler (w : W) (inputTraceEvent : event)
  : W * (event * error) :=
  let w := withHandle w in
  let '(w, o) :=
    runHandler (handle (listener w) (playerCtx w) inputTraceEvent) w in
  match o with
  | Returns outEvent => (w, (outEvent, None))
  | Panics v => (w, (None, Some (errHandlerPanic v)))
  end.

Definition transition (w : W) (inputTraceEvent : event)
  : W * (error * error) :=
  let '(w, (out, callPanicErr)) := callHandler w inputTraceEvent in
  match callPanicErr with
  | Some _ => (w, (None, callPanicErr))
  | None =>
      let '(t, err) :=
        ioTrace_extend (savedHiddenTrace w) (Some [inputTraceEvent]) in
      let w := set_savedHiddenTrace w t in
      match err with Some _ => (w, (err, None)) | None =>
      let '(t, err) := ioTrace_extend (savedHiddenTrace w) (Some [out]) in
      let w := set_savedHiddenTrace w t in
      match err with Some _ => (w, (err, None)) | None =>
      let '(t, err) :=
        ioTrace_extend (savedTrace w) (Some [inputTraceEvent]) in
      let w := set_savedTrace w t in
      match err with Some _ => (w, (err, None)) | None =>
      let '(t, err) := ioTrace_extend (savedTrace w) (Some [out]) in
      let w := set_savedTrace w t in
      match err with Some _ => (w, (err, None)) | None =>
      (w, (None, None))
      end end end end
  end.

Fixpoint transitionAll (w : W) (inputs : list event)
  : W * (error * error) :=
  match inputs with
  | [] => (w, (None, None))
  | input :: inputs' =>
      let '(w, (err, panicErr)) := transition w input in
      match err, panicErr with
      | None, None => transitionAll w inputs'
      | _, _ => (w, (err, panicErr))
      end
  end.

#[global] Instance automaton : ioAutomata W :=
  Build_ioAutomata W
    (λ w, Ok (getTrace w))
    (λ w, Ok (getTraceVisible w))
    (λ w, Ok (resetTrace w))
    (λ w e, Ok (transition w e))
    (λ w es, Ok (transitionAll w es)).
End Methods.

End Concrete.

(** ** The network adapter, [ioAutomataConcretePlayer] *)

(** [&tracer{log: serviceLogger{logging.Base()}}] *)
Inductive tracer : Set := newTracer.

(** [rootRouter.submitTop(t, player, e)] on a network in state
    [N]: the state it leaves and the actions it returns, or the value it
    panics with (the evaluation of the player argument included). *)
Class RootRouter (N : Type) : Type :=
  submitTop : N → option tracer → event → N * outcome (list action).

Module ConcretePlayer.

Record ioAutomataConcretePlayer (N : Type) : Type := mk {
  rootRouter : N;
  savedTrace : option ioTrace;   (* pointer to a trace; [None] is nil *)
  t : option tracer;             (* pointer to a tracer *)
}.
Arguments mk {N}.
Arguments rootRouter {N}.
Arguments savedTrace {N}.
Arguments t {N}.

Section Methods.
Context {N : Type} `{!RootRouter N}.

Local Abbreviation W := (ioAutomataConcretePlayer N).

Definition set_rootRouter (w : W) (n : N) : W := mk n (savedTrace w) (t w).
Definition set_savedTrace (w : W) (s : option ioTrace) : W :=
  mk (rootRouter w) s (t w).
Definition set_t (w : W) (x : option tracer) : W :=
  mk (rootRouter w) (savedTrace w) x.

Definition getTrace (w : W) : result ioTrace :=
  match savedTrace w with
  | Some tr => Ok tr
  | None => Panic nilDereference
  end.

Definition resetTrace (w : W) : W := set_savedTrace w None.

Definition getTraceVisible (w : W) : result ioTrace := Panic "unsupported".

(** [(outEvents, panicErr)]; after a panic [outEvents] is the nil slice. *)
Definition callSubmitTop (w : W) (inputTraceEvent : event)
  : W * (slice event * error) :=
  let '(n, o) := submitTop (rootRouter w) (t w) inputTraceEvent in
  let w := set_rootRouter w n in
  match o with
  | Returns actions => (w, (Some (ev <$> actions), None))
  | Panics v => (w, (None, Some (errSubmitTopPanic v)))
  end.

(** [w.savedTrace.extend(es...)] through the pointer: [extend] reads
    [t.events] only after the test on its argument. *)
Definition savedTrace_extend (w : W) (es : slice event)
  : result (W * error) :=
  match savedTrace w with
  | Some tr =>
      let '(tr, err) := ioTrace_extend tr es in
      Ok (set_savedTrace w (Some tr), err)
  | None =>
      match es with
      | None => Ok (w, Some errExtendNil)
      | Some _ => Panic nilDereference
      end
  end.

Definition transition (w : W) (inputTraceEvent : event)
  : result (W * (error * error)) :=
  let w := match savedTrace w with
           | None => set_savedTrace w (Some emptyTrace)
           | Some _ => w
           end in
  let w := match t w with
           | None => set_t w (Some newTracer)
           | Some _ => w
           end in
  let '(w, (outEvents, callPanicErr)) := callSubmitTop w inputTraceEvent in
  match callPanicErr with
  | Some _ => Ok (w, (None, callPanicErr))
  | None =>
      '(w, err) ← savedTrace_extend w (Some [inputTraceEvent]);
      match err with Some _ => Ok (w, (err, None)) | None =>
      '(w, err) ← savedTrace_extend w outEvents;
      match err with Some _ => Ok (w, (err, None)) | None =>
      Ok (w, (None, None))
      end end
  end.

Fixpoint transitionAll (w : W) (inputs : list event)
  : result (W * (error * error)) :=
  match inputs with
  | [] => Ok (w, (None, None))
  | input :: inputs' =>
      '(w, (err, panicErr)) ← transition w input;
      match err, panicErr with
      | None, None => transitionAll w inputs'
      | _, _ => Ok (w, (err, panicErr))
      end
  end.

#[global] Instance automaton : ioAutomata W :=
  Build_ioAutomata W
    getTrace
    getTraceVisible
    (λ w, Ok (resetTrace w))
    transition
    transitionAll.
End Methods.

End ConcretePlayer.

(** ** The deterministic test-case validator *)

Record determisticTraceTestCase : Type := mkTestCase {
  inputs : list event;
  expectedOutputs : list event;
  safetyProps : list ioSafetyProp;
}.

(** One turn of the loop that fills [allEvents], at index [i]. *)
Definition fillAllEvents_step (testCase : determisticTraceTestCase)
    (allEvents : list event) (i : nat) : result (list event) :=
  if decide (i < length (expectedOutputs testCase)) then
    x ← index (inputs testCase) i;
    allEvents ← assign allEvents (2 * i) x;
    y ← index (expectedOutputs testCase) i;
    assign allEvents (2 * i + 1) y
  else Ok allEvents.

(** [for i := i; i < len(testCase.inputs); i++], with [n] turns left. *)
Fixpoint fillAllEvents_loop (testCase : determisticTraceTestCase)
    (i n : nat) (allEvents : list event) : result (list event) :=
  match n with
  | 0 => Ok allEvents
  | S n' =>
      allEvents ← fillAllEvents_step testCase allEvents i;
      fillAllEvents_loop testCase (S i) n' allEvents
  end.

(** [allEvents], from [make([]event, len(expectedOutputs)*2)] on. *)
Definition fillAllEvents (testCase : determisticTraceTestCase)
  : result (list event) :=
  fillAllEvents_loop testCase 0 (length (inputs testCase))
    (replicate (length (expectedOutputs testCase) * 2) None).

(** The loop over [testCase.safetyProps]: [(invalidErr, runtimeErr)]. *)
Fixpoint checkSafetyProps (sps : list ioSafetyProp) (outputTrace : ioTrace)
  : result (error * error) :=
  match sps with
  | [] => Ok (None, None)
  | sp :: sps' =>
      '(good, msg, err) ← containsTrace sp outputTrace;
      match err with
      | Some _ => Ok (None, Some errSafetyPropEval)
      | None =>
          if negb good then Ok (Some (errNotInSafetyProp msg), None)
          else checkSafetyProps sps' outputTrace
      end
  end.

(** The test on the crash expectation: the invalid verdict it returns, or
    [None] when validation goes on. *)
Definition checkCrashExpectation (testCase : determisticTraceTestCase)
    (panicErr : error) : error :=
  if decide (length (inputs testCase) = length (expectedOutputs testCase))
  then
    match panicErr with
    | Some p => Some (errPanickedUnexpected p)
    | None => None
    end
  else if decide (length (inputs testCase)
                  = length (expectedOutputs testCase) + 1)
  then
    match panicErr with
    | None => Some errDidNotPanic
    | Some _ => None
    end
  else Some (errInputSizeInconsistent (inputs testCase)
                                      (expectedOutputs testCase)).

(** [(invalidErr, runtimeErr)], with the automaton as the run leaves it. *)
Definition ValidateAsExtension {A} `{!ioAutomata A}
    (testCase : determisticTraceTestCase) (automaton : A)
  : result (A * (error * error)) :=
  if decide (length (inputs testCase) ≠ length (expectedOutputs testCase)
             ∧ length (inputs testCase)
               ≠ length (expectedOutputs testCase) + 1)
  then Ok (automaton, (None, Some errMalformedTestCase))
  else
  existing ← getTrace automaton;
  let existingTraceLength := length (events existing) in
  allEvents ← fillAllEvents testCase;
  let expectedFinalTrace := {| events := allEvents |} in
  match ioTrace_checkWellFormed expectedFinalTrace with
  | Some err => Ok (automaton, (None, Some (errOutputsNil err)))
  | None =>
  '(automaton, (err, panicErr)) ← transitionAll automaton (inputs testCase);
  match err with
  | Some _ => Ok (automaton, (None, err))
  | None =>
  outputTrace ← getTrace automaton;
  let outputTraceLen := ioTrace_length outputTrace in
  extension ← sliceFrom (events outputTrace) existingTraceLength;
  let outputTraceExtension := {| events := extension |} in
  let validator := {| directMatchTrace := expectedFinalTrace |} in
  '(traceValid, _, runtimeErr) ←
    directMatch_containsTrace validator outputTraceExtension;
  match runtimeErr with
  | Some _ => Ok (automaton, (None, runtimeErr))
  | None =>
  if negb traceValid then
    expected ← ioTrace_String expectedFinalTrace;
    actual ← ioTrace_String outputTraceExtension;
    Ok (automaton, (Some (errIOTraceDiverge expected actual), None))
  else
  match checkCrashExpectation testCase panicErr with
  | Some invalidErr => Ok (automaton, (Some invalidErr, None))
  | None =>
  if decide (outputTraceLen < ioTrace_length expectedFinalTrace) then
    match panicErr with
    | Some p =>
        Ok (automaton,
            (Some (errPanickedEarly outputTraceLen
                     (ioTrace_length expectedFinalTrace) p), None))
    | None =>
        Ok (automaton,
            (Some (errTraceTooShort outputTraceLen
                     (ioTrace_length expectedFinalTrace)
                     expectedFinalTrace outputTraceExtension), None))
    end
  else
  verdict ← checkSafetyProps (safetyProps testCase) outputTrace;
  Ok (automaton, verdict)
  end end end end.

Definition Validate {A} `{!ioAutomata A}
    (testCase : determisticTraceTestCase) (automaton : A)
  : result (A * (error * error)) :=
  ValidateAsExtension testCase automaton.

(** The expected trace, as the validator's documentation describes it:
    the pairs [(input_i, output_i)] for every index that has an expected
    output. *)
Fixpoint interleave (ins outs : list event) : list event :=
  match ins, outs with
  | i :: ins', o :: outs' => i :: o :: interleave ins' outs'
  | _, _ => []
  end.

(** The fingerprint a trace has at an index: none outside the bounds of the
    trace, and none for a [nil] event. *)
Definition fingerprintAt (t : ioTrace) (i : nat) : option string :=
  match events t !! i with
  | Some (Some o) => Some (ComparableStr o)
  | _ => None
  end.

(** A safety property accepts a trace. *)
Definition accepts (tr : ioTrace) (sp : ioSafetyProp) : Prop :=
  ∃ msg, containsTrace sp tr = Ok (true, msg, None).

(** ** Machines used to run the harness on concrete inputs *)

Module Fixtures.

Definition simpleEvent (ty : eventType) (s : string) : event :=
  Some {| evt := ty; evString := s; ComparableStr := s |}.

Definition evTimeout : event := simpleEvent timeout "timeout".
Definition evVoteVerified : event := simpleEvent voteVerified "voteVerified".
Definition evBundleMalformed : event :=
  simpleEvent bundleMalformed "bundleMalformed".
Definition evPayloadPresent : event :=
  simpleEvent payloadPresent "payloadPresent".
Definition evNewRound : event := simpleEvent newRound "newRound".
Definition evNewPeriod : event := simpleEvent newPeriod "newPeriod".
Definition evReadStaging : event := simpleEvent readStaging "readStaging".

(** A listener without state: it panics on [bundleMalformed] and on a
    [nil] event, asks the router once on [payloadPresent], and answers
    [newRound] to everything else. *)
#[global] Instance crashOnMalformed : Listener unit unit unit :=
  λ l _ e,
    match e with
    | None => Crash l nilDereference
    | Some o =>
        match evt o with
        | bundleMalformed => Crash l "malformed bundle"
        | payloadPresent =>
            Dispatch l () evReadStaging (λ _, Return l evNewPeriod)
        | _ => Return l evNewRound
        end
    end.

(** A router that answers every dispatch with the event it was sent. *)
#[global] Instance echoRouter : Router unit unit :=
  λ r _ e, (r, Returns e).

(** The adapter around them, as constructed: both traces empty. *)
Definition freshConcrete : Concrete.ioAutomataConcrete unit unit unit :=
  Concrete.mk () () () emptyTrace emptyTrace None.

Definition actNewRound : action :=
  {| action_String := "newRound"; action_ComparableStr := "newRound" |}.

(** A network without state: it panics on [bundleMalformed] and on a
    [nil] event and answers one action to everything else. *)
#[global] Instance crashingNetwork : RootRouter unit :=
  λ n _ e,
    match e with
    | None => (n, Panics nilDereference)
    | Some o =>
        match evt o with
        | bundleMalformed => (n, Panics "malformed bundle")
        | _ => (n, Returns [actNewRound])
        end
    end.

(** The network adapter as constructed: the trace pointer is nil. *)
Definition freshPlayer : ConcretePlayer.ioAutomataConcretePlayer unit :=
  ConcretePlayer.mk () None None.

(** A safety property that rejects every trace. *)
Definition rejectAll : ioSafetyProp :=
  {| containsTrace := λ _, Ok (false, "rejected", None) |}.

(** An automaton none of whose methods can be called without a panic. *)
Definition unusable : ioAutomata unit :=
  Build_ioAutomata unit
    (λ _, Panic "getTrace") (λ _, Panic "getTraceVisible")
    (λ _, Panic "resetTrace") (λ _ _, Panic "transition")
    (λ _ _, Panic "transitionAll").

Definition malformedCase : determisticTraceTestCase :=
  {| inputs := [evTimeout; evTimeout; evTimeout];
     expectedOutputs := [evNewRound];
     safetyProps := [] |}.

(** As many outputs as inputs, the second input makes the listener
    panic, and the first output is the one the listener gives. *)
Definition panicNotExpected : determisticTraceTestCase :=
  {| inputs := [evVoteVerified; evBundleMalformed];
     expectedOutputs := [evNewRound; evNewPeriod];
     safetyProps := [] |}.

(** One output short, and no input makes the listener panic. *)
Definition panicMissing : determisticTraceTestCase :=
  {| inputs := [evTimeout; evTimeout];
     expectedOutputs := [evNewRound];
     safetyProps := [] |}.

(** One output short, and the final input makes the listener panic. *)
Definition panicExpected : determisticTraceTestCase :=
  {| inputs := [evVoteVerified; evBundleMalformed];
     expectedOutputs := [evNewRound];
     safetyProps := [ioPropAll] |}.

(** As [panicNotExpected], with a first output the listener does not
    give. *)
Definition panicAfterDivergence : determisticTraceTestCase :=
  {| inputs := [evVoteVerified; evBundleMalformed];
     expectedOutputs := [evNewPeriod; evNewRound];
     safetyProps := [] |}.

(** As [panicMissing], with an output the listener does not give. *)
Definition noPanicAfterDivergence : determisticTraceTestCase :=
  {| inputs := [evTimeout; evTimeout];
     expectedOutputs := [evNewPeriod];
     safetyProps := [] |}.

(** As [panicExpected], with a safety property that rejects the trace. *)
Definition panicExpectedRejected : determisticTraceTestCase :=
  {| inputs := [evVoteVerified; evBundleMalformed];
     expectedOutputs := [evNewRound];
     safetyProps := [rejectAll] |}.

(** The adapter of the fixtures after one transition on [timeout]. *)
Definition advancedConcrete : Concrete.ioAutomataConcrete unit unit unit :=
  (Concrete.transition freshConcrete evTimeout).1.

(** One output short, and the first input already makes the listener
    panic. *)
Definition panicEarly : determisticTraceTestCase :=
  {| inputs := [evBundleMalformed; evTimeout];
     expectedOutputs := [evNewRound];
     safetyProps := [] |}.

End Fixtures.

(** ** Further queries on traces *)

(** [strings.Contains(s, substr)]: [substr] starts at some position of
    [s]. *)
Fixpoint strings_Contains (s substr : string) : bool :=
  String.prefix substr s
  || match s with
     | EmptyString => false
     | String _ s' => strings_Contains s' substr
     end.

Definition ioTrace_ContainsString (t : ioTrace) (s : string) : result bool :=
  ioTrace_ContainsFn t (λ b,
    x ← event_ComparableStr b;
    Ok (strings_Contains x s)).

Fixpoint ioTrace_CountEvent_loop (es : list event) (b : event) (count : nat)
  : result nat :=
  match es with
  | [] => Ok count
  | e :: es' =>
      x ← event_ComparableStr e;
      y ← event_ComparableStr b;
      ioTrace_CountEvent_loop es' b
        (if decide (x = y) then S count else count)
  end.

Definition ioTrace_CountEvent (t : ioTrace) (b : event) : result nat :=
  ioTrace_CountEvent_loop (events t) b 0.

(** ** Property checkers *)

(** The [ioPropChecker] interface: [addEvent(e)] on a checker in state
    [C]. *)
Class ioPropChecker (C : Type) : Type :=
  addEvent : C → event → result (C * error).

(** [ioPropAllChecker], an empty struct. *)
Inductive ioPropAllChecker : Set := mkPropAllChecker.

Global Instance ioPropAllChecker_addEvent : ioPropChecker ioPropAllChecker :=
  λ c _, Ok (c, None).

(** [ioPropAll.newPropChecker()]: [new(ioPropAllChecker)]. *)
Definition ioPropAll_newPropChecker : result ioPropAllChecker :=
  Ok mkPropAllChecker.

(** [ioPropWrapper]: the embedded factory, seen through what its
    [newPropChecker()] returns. *)
Record ioPropWrapper (C : Type) : Type := mkPropWrapper {
  newPropChecker : result C;
}.
Arguments mkPropWrapper {C}.
Arguments newPropChecker {C}.

Section Wrapper.
Context {C : Type} `{!ioPropChecker C}.

(** The [Error()] method of the errors that checkers return. *)
Context (Error : error_val → string).

(** [for _, e := range trace.events] *)
Fixpoint ioPropWrapper_loop (checker : C) (es : list event)
  : result (bool * string * error) :=
  match es with
  | [] => Ok (true, "", None)
  | e :: es' =>
      '(checker, valid) ← addEvent checker e;
      match valid with
      | Some v => Ok (false, Error v, None)
      | None => ioPropWrapper_loop checker es'
      end
  end.

Definition ioPropWrapper_containsTrace (w : ioPropWrapper C)
    (trace : ioTrace) : result (bool * string * error) :=
  checker ← newPropChecker w;
  match ioTrace_checkWellFormed trace with
  | Some err => Ok (false, "", Some err)
  | None => ioPropWrapper_loop checker (events trace)
  end.

(** The wrapper as an [ioSafetyProp]. *)
Definition ioPropWrapper_prop (w : ioPropWrapper C) : ioSafetyProp :=
  {| containsTrace := ioPropWrapper_containsTrace w |}.
End Wrapper.

(** ** The test-case builder *)

(** [append(s, xs...)] *)
Definition append {X} (s : slice X) (xs : list X) : slice X :=
  match s, xs with
  | None, [] => None
  | _, _ => Some (default [] s ++ xs)
  end.

(** The elements of a slice; the nil slice has none. *)
Definition elements {X} (s : slice X) : list X := default [] s.

Module Builder.

Record testCaseBuilder : Type := mk {
  inputs : slice event;
  expectedOutputs : slice event;
  safetyProps : slice ioSafetyProp;
}.

(** [&determisticTraceTestCase{b.inputs, b.expectedOutputs,
    b.safetyProps}] *)
Definition Build (b : testCaseBuilder) : determisticTraceTestCase :=
  mkTestCase (elements (inputs b)) (elements (expectedOutputs b))
             (elements (safetyProps b)).

Definition AddInOutPair (b : testCaseBuilder) (input output : event)
  : testCaseBuilder :=
  let b := match inputs b with
           | None => mk (Some []) (expectedOutputs b) (safetyProps b)
           | Some _ => b
           end in
  let b := match expectedOutputs b with
           | None => mk (inputs b) (Some []) (safetyProps b)
           | Some _ => b
           end in
  let b := mk (append (inputs b) [input]) (expectedOutputs b)
              (safetyProps b) in
  mk (inputs b) (append (expectedOutputs b) [output]) (safetyProps b).

Definition AddSafetyProp (b : testCaseBuilder) (prop : ioSafetyProp)
  : testCaseBuilder :=
  let b := match safetyProps b with
           | None => mk (inputs b) (expectedOutputs b) (Some [])
           | Some _ => b
           end in
  mk (inputs b) (expectedOutputs b) (append (safetyProps b) [prop]).

(** [testCaseBuilder{}] *)
Definition empty : testCaseBuilder := mk None None None.

(** One call on a builder. *)
Inductive call : Type :=
| callAddInOutPair (input output : event)
| callAddSafetyProp (prop : ioSafetyProp).

Definition apply (b : testCaseBuilder) (c : call) : testCaseBuilder :=
  match c with
  | callAddInOutPair input output => AddInOutPair b input output
  | callAddSafetyProp prop => AddSafetyProp b prop
  end.

End Builder.

(** ** The names of the event types *)

Definition eventType_code (i : eventType) : Z :=
  match i with
  | none => 0 | votePresent => 1 | payloadPresent => 2 | bundlePresent => 3
  | voteVerified => 4 | payloadVerified => 5 | bundleVerified => 6
  | roundInterruption => 7 | timeout => 8 | fastTimeout => 9
  | speculationTimeout => 10 | softThreshold => 11 | certThreshold => 12
  | nextThreshold => 13 | proposalCommittable => 14
  | proposalAccepted => 15 | voteFiltered => 16 | voteMalformed => 17
  | bundleFiltered => 18 | bundleMalformed => 19 | payloadRejected => 20
  | payloadMalformed => 21 | payloadPipelined => 22 | payloadAccepted => 23
  | proposalFrozen => 24 | voteAccepted => 25 | newRound => 26
  | newPeriod => 27 | readStaging => 28 | readPinned => 29
  | readLowestValue => 30 | readLowestPayload => 31
  | voteFilterRequest => 32 | voteFilteredStep => 33
  | nextThresholdStatusRequest => 34 | nextThresholdStatus => 35
  | freshestBundleRequest => 36 | freshestBundle => 37
  | dumpVotesRequest => 38 | dumpVotes => 39 | wrappedAction => 40
  | checkpointReached => 41
  end%Z.

Definition eventType_ident (i : eventType) : string :=
  match i with
  | none => "none" | votePresent => "votePresent"
  | payloadPresent => "payloadPresent" | bundlePresent => "bundlePresent"
  | voteVerified => "voteVerified" | payloadVerified => "payloadVerified"
  | bundleVerified => "bundleVerified"
  | roundInterruption => "roundInterruption" | timeout => "timeout"
  | fastTimeout => "fastTimeout"
  | speculationTimeout => "speculationTimeout"
  | softThreshold => "softThreshold" | certThreshold => "certThreshold"
  | nextThreshold => "nextThreshold"
  | proposalCommittable => "proposalCommittable"
  | proposalAccepted => "proposalAccepted" | voteFiltered => "voteFiltered"
  | voteMalformed => "voteMalformed" | bundleFiltered => "bundleFiltered"
  | bundleMalformed => "bundleMalformed"
  | payloadRejected => "payloadRejected"
  | payloadMalformed => "payloadMalformed"
  | payloadPipelined => "payloadPipelined"
  | payloadAccepted => "payloadAccepted"
  | proposalFrozen => "proposalFrozen" | voteAccepted => "voteAccepted"
  | newRound => "newRound" | newPeriod => "newPeriod"
  | readStaging => "readStaging" | readPinned => "readPinned"
  | readLowestValue => "readLowestValue"
  | readLowestPayload => "readLowestPayload"
  | voteFilterRequest => "voteFilterRequest"
  | voteFilteredStep => "voteFilteredStep"
  | nextThresholdStatusRequest => "nextThresholdStatusRequest"
  | nextThresholdStatus => "nextThresholdStatus"
  | freshestBundleRequest => "freshestBundleRequest"
  | freshestBundle => "freshestBundle"
  | dumpVotesRequest => "dumpVotesRequest" | dumpVotes => "dumpVotes"
  | wrappedAction => "wrappedAction"
  | checkpointReached => "checkpointReached"
  end.

Definition _eventType_name : string :=
  "nonevotePresentpayloadPresentbundlePresentvoteVerifiedpayloa"
  +:+ "dVerifiedbundleVerifiedroundInterruptiontimeoutfastTimeoutsp"
  +:+ "eculationTimeoutsoftThresholdcertThresholdnextThresholdpropo"
  +:+ "salCommittableproposalAcceptedvoteFilteredvoteMalformedbundl"
  +:+ "eFilteredbundleMalformedpayloadRejectedpayloadMalformedpaylo"
  +:+ "adPipelinedpayloadAcceptedproposalFrozenvoteAcceptednewRound"
  +:+ "newPeriodreadStagingreadPinnedreadLowestValuereadLowestPaylo"
  +:+ "advoteFilterRequestvoteFilteredStepnextThresholdStatusReques"
  +:+ "tnextThresholdStatusfreshestBundleRequestfreshestBundledumpV"
  +:+ "otesRequestdumpVoteswrappedActioncheckpointReached".

Definition _eventType_index : list nat :=
  [0; 4; 15; 29; 42; 54; 69; 83; 100; 107; 118; 136; 149; 162; 175; 194;
   210; 222; 235; 249; 264; 279; 295; 311; 326; 340; 352; 360; 369; 380;
   390; 405; 422; 439; 455; 481; 500; 521; 535; 551; 560; 573; 590].

(** [s[lo:hi]] on a string. *)
Definition sliceString (s : string) (lo hi : nat) : result string :=
  if decide (lo ≤ hi ∧ hi ≤ String.length s)
  then Ok (String.substring lo (hi - lo) s)
  else Panic sliceOutOfRange.

(** [eventType.String], on the number [i] of the event type;
    [strconv.FormatInt(int64(i), 10)] is the decimal rendering of [i]. *)
Definition eventType_String (i : Z) : result string :=
  if decide ((i < 0)%Z ∨ (Z.of_nat (length _eventType_index) - 1 ≤ i)%Z)
  then Ok ("eventType(" +:+ pretty i +:+ ")")
  else
    lo ← index _eventType_index (Z.to_nat i);
    hi ← index _eventType_index (Z.to_nat (i + 1));
    sliceString _eventType_name lo hi.

(** ** Further machines *)

Module MoreFixtures.
Import Fixtures.

(** A checker that counts the events it has seen and refuses every
    [bundleMalformed]. *)
#[global] Instance refuseMalformed : ioPropChecker nat :=
  λ n e,
    match e with
    | None => Panic nilDereference
    | Some o =>
        match evt o with
        | bundleMalformed => Ok (n, Some (errOther "malformed"))
        | _ => Ok (S n, None)
        end
    end.

(** The message of the errors of [refuseMalformed]. *)
Definition messageOf (e : error_val) : string :=
  match e with
  | errOther msg => msg
  | _ => ""
  end.

End MoreFixtures.

(** ** Notions used in the statements *)

(** The events of a list that have the fingerprint [s]. *)
Definition withFingerprint (s : string) (es : list event) : list event :=
  filter (λ e : event, ComparableStr <$> e = Some s) es.

(** The events of a list whose type is [wrappedAction]. *)
Definition wrappedActions (es : list event) : list event :=
  filter (λ e : event, evt <$> e = Some wrappedAction) es.

(** The traces have different fingerprints at [i] and the same fingerprint
    at every index before [i]. *)
Definition firstMismatch (t r : ioTrace) (i : nat) : Prop :=
  (∃ a b, fingerprintAt t i = Some a ∧ fingerprintAt r i = Some b ∧ a ≠ b)
  ∧ ∀ j, j < i →
      ∃ s, fingerprintAt t j = Some s ∧ fingerprintAt r j = Some s.

(** Two adapters wrap the same machine in the same state. *)
Definition sameMachine {P L R : Type}
    (w1 w2 : Concrete.ioAutomataConcrete P L R) : Prop :=
  Concrete.listener w1 = Concrete.listener w2
  ∧ Concrete.routerCtx w1 = Concrete.routerCtx w2
  ∧ Concrete.playerCtx w1 = Concrete.playerCtx w2.

Section HandlerCalls.
Context {P D L R : Type} `{!Listener P D L, !Router D R}.

Local Abbreviation W := (Concrete.ioAutomataConcrete P L R).

(** The call [w.listener.handle(handle, w.playerCtx, input)] that
    [callHandler] makes: the adapter as the handler leaves it, and the
    event the handler returned or the value it panicked with. *)
Definition handlerCall (w : W) (input : event) : W * outcome event :=
  let w0 := Concrete.withHandle w in
  Concrete.runHandler
    (handle (D:=D) (Concrete.listener w0) (Concrete.playerCtx w0) input) w0.

(** The handler called on the inputs one after the other, each call on the
    adapter as the call before left it: the events it returned before its
    first panic, and the value of that panic if there was one.  No input
    after the panic is handled. *)
Fixpoint handlerOutputs (w : W) (inputs : list event)
  : list event * option string :=
  match inputs with
  | [] => ([], None)
  | input :: inputs' =>
      match handlerCall w input with
      | (_, Panics v) => ([], Some v)
      | (w1, Returns out) =>
          let '(outs, p) := handlerOutputs w1 inputs' in (out :: outs, p)
      end
  end.
End HandlerCalls.

(** Two adapters have got the same events since [v1] and [v2]. *)
Definition sameGrowth (v1 v2 : ioTrace) (t1 t2 : ioTrace) : Prop :=
  ∃ more, events t1 = events v1 ++ more ∧ events t2 = events v2 ++ more.

(** The trace the adapter holds; the nil pointer stands for no events. *)
Definition heldTrace {N : Type}
    (w : ConcretePlayer.ioAutomataConcretePlayer N) : ioTrace :=
  default emptyTrace (ConcretePlayer.savedTrace w).

(** The errors the validator makes as invalid verdicts. *)
Definition isVerdict (e : error_val) : Prop :=
  match e with
  | errIOTraceDiverge _ _ | errPanickedUnexpected _ | errDidNotPanic
  | errPanickedEarly _ _ _ | errTraceTooShort _ _ _ _
  | errNotInSafetyProp _ => True
  | _ => False
  end.

(** The pairs and the safety properties that a list of calls adds. *)
Definition pairsOf (cs : list Builder.call) : list (event * event) :=
  omap (λ c, match c with
             | Builder.callAddInOutPair i o => Some (i, o)
             | Builder.callAddSafetyProp _ => None
             end) cs.

Definition propsOf (cs : list Builder.call) : list ioSafetyProp :=
  omap (λ c, match c with
             | Builder.callAddInOutPair _ _ => None
             | Builder.callAddSafetyProp p => Some p
             end) cs.

(** The event types in the order of their numbers. *)
Definition eventTypes : list eventType :=
  [none; votePresent; payloadPresent; bundlePresent; voteVerified;
   payloadVerified; bundleVerified; roundInterruption; timeout; fastTimeout;
   speculationTimeout; softThreshold; certThreshold; nextThreshold;
   proposalCommittable; proposalAccepted; voteFiltered; voteMalformed;
   bundleFiltered; bundleMalformed; payloadRejected; payloadMalformed;
   payloadPipelined; payloadAccepted; proposalFrozen; voteAccepted; newRound;
   newPeriod; readStaging; readPinned; readLowestValue; readLowestPayload;
   voteFilterRequest; voteFilteredStep; nextThresholdStatusRequest;
   nextThresholdStatus; freshestBundleRequest; freshestBundle;
   dumpVotesRequest; dumpVotes; wrappedAction; checkpointReached].

(** * Properties *)

(** ** Traces *)

Lemma extend_some t es :
  ioTrace_extend t (Some es) = ({| events := events t ++ es |}, None).
Proof. reflexivity. Qed.

Lemma checkWellFormed_loop_None es :
  checkWellFormed_loop es = None ↔ Forall is_Some es.
Proof.
  induction es as [|[o|] es IH]; simpl.
  - split; [constructor | done].
  - rewrite IH. split.
    + intros H. constructor; [by eexists | done].
    + by inversion 1.
  - split; [done |]. inversion 1 as [|? ? [? ?]]. discriminate.
Qed.

Lemma checkWellFormed_loop_app_nil es :
  checkWellFormed_loop (es ++ [None]) = Some errTraceContainsNil.
Proof. induction es as [|[o|] es IH]; simpl; auto. Qed.

(** C1.  [extend] looks at the argument slice as a whole, not at the events
    in it: extended by a single nil event, a trace takes the event and
    returns no error, and the trace it leaves is not well formed.  The
    same holds for every slice that is not nil, whatever it holds. *)
Theorem extend_takes_nil_event :
  ioTrace_extend emptyTrace (Some [None]) = ({| events := [None] |}, None)
  ∧ (∀ t es, (ioTrace_extend t (Some es)).2 = None
             ∧ events (ioTrace_extend t (Some es)).1 = events t ++ es)
  ∧ (∀ t, ioTrace_checkWellFormed (ioTrace_extend t (Some [None])).1
          = Some errTraceContainsNil).
Proof.
  split; [reflexivity |]. split.
  - intros t es. by rewrite extend_some.
  - intros t. rewrite extend_some. apply checkWellFormed_loop_app_nil.
Qed.

(** ** The direct-match property *)

Lemma directMatch_loop_Ok trace ref b info err :
  directMatch_loop trace ref = Ok (b, info, err) → info = "" ∧ err = None.
Proof.
  revert ref. induction trace as [|c trace IH]; intros [|r ref]; simpl;
    try (intros [= <- <- <-]; done).
  destruct c as [oc|], r as [or|]; simpl; try discriminate.
  case_decide; [intros [= <- <- <-]; done | apply IH].
Qed.

Lemma directMatch_loop_true trace ref :
  directMatch_loop trace ref = Ok (true, "", None)
  ↔ ∀ i c r, trace !! i = Some c → ref !! i = Some r →
      ∃ oc or, c = Some oc ∧ r = Some or
               ∧ ComparableStr oc = ComparableStr or.
Proof.
  revert ref. induction trace as [|c trace IH]; intros [|r ref]; simpl.
  - split; [intros _ i ? ? ? | done]. by rewrite lookup_nil.
  - split; [intros _ i ? ? | done]. by rewrite lookup_nil.
  - split; [intros _ i ? ? ? | done]. by rewrite lookup_nil.
  - destruct c as [oc|]; simpl.
    2:{ split; [done |]. intros H.
        destruct (H 0 None r eq_refl eq_refl) as (? & ? & ? & _). done. }
    destruct r as [or|]; simpl.
    2:{ split; [done |]. intros H.
        destruct (H 0 (Some oc) None eq_refl eq_refl) as (? & ? & ? & ? & _).
        done. }
    case_decide as Hne.
    + split; [done |]. intros H.
      destruct (H 0 (Some oc) (Some or) eq_refl eq_refl)
        as (? & ? & [= <-] & [= <-] & ?). done.
    + rewrite IH. split.
      * intros H [|i] c' r'; simpl.
        -- intros [= <-] [= <-]. eauto.
        -- apply H.
      * intros H i c' r' Hc Hr. exact (H (S i) c' r' Hc Hr).
Qed.

Lemma directMatch_loop_total trace ref :
  Forall is_Some trace → Forall is_Some ref →
  ∃ b, directMatch_loop trace ref = Ok (b, "", None).
Proof.
  intros Ht. revert ref.
  induction Ht as [|c trace [oc ->] Ht IH]; intros ref Hr; simpl.
  - eauto.
  - destruct Hr as [|r ref [or ->] Hr]; simpl; [eauto |].
    case_decide; [eauto | by apply IH].
Qed.

Lemma directMatch_loop_prefix ref more :
  Forall is_Some ref →
  directMatch_loop (ref ++ more) ref = Ok (true, "", None).
Proof.
  induction 1 as [|r ref [or ->] Hr IH]; simpl.
  - by destruct more.
  - case_decide; [done | apply IH].
Qed.

Lemma fingerprintAt_Some t i s :
  fingerprintAt t i = Some s
  ↔ ∃ o, events t !! i = Some (Some o) ∧ ComparableStr o = s.
Proof.
  unfold fingerprintAt. destruct (events t !! i) as [[o|]|]; split;
    try (intros [= <-]; eauto); try (intros (? & [= <-] & <-); done);
    try (intros (? & [=] & _)); done.
Qed.

(** C4 (as amended).  The direct-match property built from [r] contains a
    candidate [t] exactly when the two traces have the same fingerprint at
    every index that lies within the bounds of both of them: events of the
    candidate beyond the reference are unconstrained, and so are events of
    the reference beyond a shorter candidate.  The answer never carries a
    message or an error. *)
Theorem directMatch_containsTrace_iff (r t : ioTrace) :
  (containsTrace (directMatch r) t = Ok (true, "", None)
   ↔ ∀ i, i < ioTrace_length t → i < ioTrace_length r →
       ∃ s, fingerprintAt t i = Some s ∧ fingerprintAt r i = Some s)
  ∧ (∀ b info err, containsTrace (directMatch r) t = Ok (b, info, err) →
       info = "" ∧ err = None).
Proof.
  split; [| intros b info err; apply directMatch_loop_Ok].
  simpl. unfold directMatch_containsTrace, ioTrace_length. simpl.
  rewrite directMatch_loop_true. split.
  - intros H i Ht Hr.
    destruct (lookup_lt_is_Some_2 _ _ Ht) as [c Hc].
    destruct (lookup_lt_is_Some_2 _ _ Hr) as [x Hx].
    destruct (H i c x Hc Hx) as (oc & ox & -> & -> & Heq).
    exists (ComparableStr oc). split; apply fingerprintAt_Some; eauto.
  - intros H i c x Hc Hx.
    destruct (H i) as (s & Hs1 & Hs2).
    { eapply lookup_lt_Some, Hc. }
    { eapply lookup_lt_Some, Hx. }
    apply fingerprintAt_Some in Hs1 as (oc & Hoc & <-).
    apply fingerprintAt_Some in Hs2 as (ox & Hox & Heq).
    exists oc, ox. split_and!; congruence.
Qed.

(** A candidate that stops before a reference of two events is contained
    in the property. *)
Lemma directMatch_containsTrace_iff_witness :
  containsTrace (directMatch {| events := [Fixtures.evTimeout;
                                           Fixtures.evNewRound] |})
                {| events := [Fixtures.evTimeout] |}
  = Ok (true, "", None).
Proof.
  apply (proj1 (directMatch_containsTrace_iff _ _)).
  intros [|i] Ht Hr; [| unfold ioTrace_length in Ht; simpl in Ht; lia].
  exists "timeout". split; reflexivity.
Defined.

(** C4 (as stated) fails: the candidate [[timeout]] is contained in the
    property built from [[timeout; newRound]], and has no fingerprint at
    index 1, which lies within the bounds of the reference. *)
Lemma directMatch_accepts_shorter_candidate :
  let r := {| events := [Fixtures.evTimeout; Fixtures.evNewRound] |} in
  let t := {| events := [Fixtures.evTimeout] |} in
  containsTrace (directMatch r) t = Ok (true, "", None)
  ∧ ¬ (∀ i, i < ioTrace_length r →
         ∃ s, fingerprintAt t i = Some s ∧ fingerprintAt r i = Some s).
Proof.
  intros r t. split; [reflexivity |].
  intros H. assert (Hlt : 1 < ioTrace_length r) by (unfold r, ioTrace_length; simpl; lia).
  destruct (H 1 Hlt) as (s & Hs & _). discriminate.
Qed.




(** ** The single-listener adapter *)

Section ConcreteProperties.
Context {P D L R : Type} `{!Listener P D L, !Router D R}.

Local Abbreviation W := (Concrete.ioAutomataConcrete P L R).

Lemma dispatch_traces (w w' : W) ctx e o :
  Concrete.dispatch w ctx e = (w', o) →
  Concrete.savedHiddenTrace w' = Concrete.savedHiddenTrace w
  ∧ ∃ internal,
      events (Concrete.savedTrace w')
      = events (Concrete.savedTrace w) ++ internal.
Proof.
  unfold Concrete.dispatch. simpl.
  destruct (router_dispatch _ ctx e) as [r [out|v]]; intros [= <- <-];
    simpl; (split; [done |]).
  - exists [e; out]. by rewrite <- app_assoc.
  - by exists [e].
Qed.

Lemma runHandler_traces (p : handlerRun D L) (w w' : W) o :
  Concrete.runHandler p w = (w', o) →
  Concrete.savedHiddenTrace w' = Concrete.savedHiddenTrace w
  ∧ ∃ internal,
      events (Concrete.savedTrace w')
      = events (Concrete.savedTrace w) ++ internal.
Proof.
  revert w. induction p as [l out | l v | l ctx e k IH]; intros w; simpl.
  - intros [= <- <-]. split; [done |]. exists []. by rewrite app_nil_r.
  - intros [= <- <-]. split; [done |]. exists []. by rewrite app_nil_r.
  - destruct (Concrete.dispatch _ ctx e) as [w1 [out|v]] eqn:Hd;
      apply dispatch_traces in Hd as [Hh [i1 Hv]]; simpl in Hh, Hv.
    + intros Hrun. apply IH in Hrun as [Hh' [i2 Hv']].
      split; [congruence |]. exists (i1 ++ i2).
      by rewrite Hv', Hv, app_assoc.
    + intros [= <- <-]. split; [done |]. by exists i1.
Qed.

(** What [transition] returns, from what the handler did. *)
Lemma transition_unfold (w : W) (input : event) :
  Concrete.transition w input =
  let w0 := Concrete.withHandle w in
  match Concrete.runHandler
          (handle (Concrete.listener w0) (Concrete.playerCtx w0) input) w0
  with
  | (w1, Panics v) => (w1, (None, Some (errHandlerPanic v)))
  | (w1, Returns out) =>
      (Concrete.mk (Concrete.listener w1) (Concrete.routerCtx w1)
         (Concrete.playerCtx w1)
         {| events := (events (Concrete.savedHiddenTrace w1) ++ [input])
                      ++ [out] |}
         {| events := (events (Concrete.savedTrace w1) ++ [input])
                      ++ [out] |}
         (Concrete.rHandle w1),
       (None, None))
  end.
Proof.
  unfold Concrete.transition, Concrete.callHandler.
  simpl. by destruct (Concrete.runHandler _ _) as [w1 [out|v]].
Qed.

Lemma transition_err_nil (w : W) (input : event) :
  (Concrete.transition w input).2.1 = None.
Proof.
  rewrite transition_unfold. simpl.
  by destruct (Concrete.runHandler _ _) as [w1 [out|v]].
Qed.

Lemma transitionAll_err_nil (w : W) (inputs : list event) :
  (Concrete.transitionAll w inputs).2.1 = None.
Proof.
  revert w. induction inputs as [|input inputs IH]; intros w; simpl;
    [done |].
  pose proof (transition_err_nil w input) as Hnil.
  destruct (Concrete.transition w input) as [w1 [err panicErr]].
  simpl in Hnil. subst err. destruct panicErr; [done | apply IH].
Qed.

(** C7.  When the handler panics with [v] during [transition], the call
    returns: the panic error made from [v], no ordinary error, and the
    hidden trace as it was; the visible trace keeps only what the
    handler's own dispatches put on it.  When the handler returns [out],
    both results are nil and the pair [input, out] is at the end of both
    traces. *)
Theorem transition_handler_panic (w w1 : W) (input : event) :
  let run := Concrete.runHandler
               (handle (D:=D) (Concrete.listener (Concrete.withHandle w))
                       (Concrete.playerCtx (Concrete.withHandle w)) input)
               (Concrete.withHandle w) in
  (∀ v, run = (w1, Panics v) →
     transition w input = Ok (w1, (None, Some (errHandlerPanic v)))
     ∧ Concrete.savedHiddenTrace w1 = Concrete.savedHiddenTrace w
     ∧ getTrace w1 = Ok (Concrete.savedHiddenTrace w))
  ∧ (∀ out, run = (w1, Returns out) →
     ∃ w2, transition w input = Ok (w2, (None, None))
       ∧ events (Concrete.savedHiddenTrace w2)
         = events (Concrete.savedHiddenTrace w) ++ [input; out]
       ∧ events (Concrete.savedTrace w2)
         = events (Concrete.savedTrace w1) ++ [input; out]).
Proof.
  intros run. split.
  - intros v Hrun. simpl. rewrite transition_unfold. simpl.
    fold run. rewrite Hrun.
    apply runHandler_traces in Hrun as [Hh _].
    assert (Concrete.savedHiddenTrace (Concrete.withHandle w)
            = Concrete.savedHiddenTrace w) as Hw
      by (unfold Concrete.withHandle; by destruct (Concrete.rHandle w)).
    rewrite Hw in Hh. unfold Concrete.getTrace. by rewrite Hh.
  - intros out Hrun. simpl. rewrite transition_unfold. simpl.
    fold run. rewrite Hrun. eexists. split; [reflexivity |]. simpl.
    apply runHandler_traces in Hrun as [Hh _].
    assert (Concrete.savedHiddenTrace (Concrete.withHandle w)
            = Concrete.savedHiddenTrace w) as Hw
      by (unfold Concrete.withHandle; by destruct (Concrete.rHandle w)).
    rewrite Hh, Hw, <- !app_assoc. done.
Qed.

(** Both traces grow by the pair [input, out] on a transition that did
    not panic; the visible trace also holds, before the pair, what
    was dispatched meanwhile. *)
Lemma transition_traces_parallel (w : W) (input : event) :
  ∀ w' err, Concrete.transition w input = (w', (err, None)) →
    ∃ out internal,
      events (Concrete.savedHiddenTrace w')
      = events (Concrete.savedHiddenTrace w) ++ [input; out]
      ∧ events (Concrete.savedTrace w')
        = events (Concrete.savedTrace w) ++ internal ++ [input; out].
Proof.
  intros w' err. rewrite transition_unfold. simpl.
  destruct (Concrete.runHandler _ _) as [w1 [out|v]] eqn:Hrun;
    [| discriminate].
  intros [= <- <-]. simpl.
  apply runHandler_traces in Hrun as [Hh [internal Hv]].
  assert (Concrete.savedHiddenTrace (Concrete.withHandle w)
          = Concrete.savedHiddenTrace w
          ∧ Concrete.savedTrace (Concrete.withHandle w) = Concrete.savedTrace w)
    as [Hw1 Hw2]
    by (unfold Concrete.withHandle; by destruct (Concrete.rHandle w)).
  exists out, internal. rewrite Hh, Hv, Hw1, Hw2, <- !app_assoc. done.
Qed.
End ConcreteProperties.

(** The listener of the fixtures panics on [bundleMalformed]: the adapter
    returns the panic error and its hidden trace stays empty. *)
Lemma transition_handler_panic_witness :
  ∃ w1,
    transition Fixtures.freshConcrete Fixtures.evBundleMalformed
    = Ok (w1, (None, Some (errHandlerPanic "malformed bundle")))
    ∧ Concrete.savedHiddenTrace w1 = emptyTrace
    ∧ getTrace w1 = Ok emptyTrace.
Proof.
  eexists.
  eapply (proj1 (transition_handler_panic Fixtures.freshConcrete _
                   Fixtures.evBundleMalformed)).
  reflexivity.
Defined.

(** ** The network adapter *)

Section PlayerProperties.
Context {N : Type} `{!RootRouter N}.

Local Abbreviation W := (ConcretePlayer.ioAutomataConcretePlayer N).

(** What [transition] returns, from what the network did: [tr] is the
    trace the adapter holds, or the empty one it allocates. *)
Lemma player_transition_unfold (w : W) (input : event) :
  ConcretePlayer.transition w input =
  let tr := default emptyTrace (ConcretePlayer.savedTrace w) in
  let t := Some (default newTracer (ConcretePlayer.t w)) in
  match submitTop (ConcretePlayer.rootRouter w) t input with
  | (n, Panics v) =>
      Ok (ConcretePlayer.mk n (Some tr) t,
          (None, Some (errSubmitTopPanic v)))
  | (n, Returns actions) =>
      Ok (ConcretePlayer.mk n
            (Some {| events := (events tr ++ [input]) ++ (ev <$> actions) |})
            t,
          (None, None))
  end.
Proof.
  unfold ConcretePlayer.transition, ConcretePlayer.callSubmitTop.
  destruct w as [n [tr|] [[]|]]; simpl;
    by destruct (submitTop n _ input) as [n' [actions|v]].
Qed.

Lemma player_transition_err_nil (w : W) (input : event) :
  ∃ w' panicErr,
    ConcretePlayer.transition w input = Ok (w', (None, panicErr))
    ∧ is_Some (ConcretePlayer.savedTrace w').
Proof.
  rewrite player_transition_unfold. simpl.
  destruct (submitTop _ _ input) as [n' [actions|v]]; eauto.
Qed.

Lemma player_transitionAll_err_nil (w : W) (inputs : list event) :
  ∃ w' panicErr,
    ConcretePlayer.transitionAll w inputs = Ok (w', (None, panicErr)).
Proof.
  revert w. induction inputs as [|input inputs IH]; intros w; simpl;
    [eauto |].
  destruct (player_transition_err_nil w input) as (w1 & p & -> & _).
  simpl. destruct p; [eauto | apply IH].
Qed.

(** C9.  While the saved-trace pointer of the network adapter is nil,
    [getTrace] panics on the nil dereference: so it does on the adapter
    as constructed, after [resetTrace], and in [Validate], which reads
    the existing trace as soon as the test case has passed the test on
    its shape.  A [transition] allocates the trace, and [getTrace]
    returns from then on. *)
Theorem player_getTrace_nil_panics (w : W) :
  (ConcretePlayer.savedTrace w = None →
     getTrace w = Panic nilDereference)
  ∧ (∀ w', resetTrace w = Ok w' → getTrace w' = Panic nilDereference)
  ∧ (∀ testCase,
       ConcretePlayer.savedTrace w = None →
       length (inputs testCase) = length (expectedOutputs testCase)
       ∨ length (inputs testCase)
         = length (expectedOutputs testCase) + 1 →
       Validate testCase w = Panic nilDereference)
  ∧ (∀ input w' r,
       transition w input = Ok (w', r) → ∃ tr, getTrace w' = Ok tr).
Proof.
  split_and!.
  - simpl. unfold ConcretePlayer.getTrace. by intros ->.
  - simpl. by intros w' [= <-].
  - intros testCase Hnil Hshape.
    unfold Validate, ValidateAsExtension.
    case_decide as Hbad; [lia |].
    simpl. unfold ConcretePlayer.getTrace. by rewrite Hnil.
  - intros input w' r. simpl.
    destruct (player_transition_err_nil w input)
      as (w1 & p & -> & [tr Htr]).
    intros [= <- <-]. exists tr. unfold ConcretePlayer.getTrace.
    by rewrite Htr.
Qed.
End PlayerProperties.

Lemma player_getTrace_nil_panics_witness :
  getTrace Fixtures.freshPlayer = Panic nilDereference
  ∧ Validate {| inputs := [Fixtures.evTimeout];
                expectedOutputs := [Fixtures.evNewRound];
                safetyProps := [] |} Fixtures.freshPlayer
    = Panic nilDereference.
Proof.
  destruct (player_getTrace_nil_panics Fixtures.freshPlayer)
    as (H1 & _ & H3 & _).
  split.
  - apply H1. reflexivity.
  - apply H3; [reflexivity | left; reflexivity].
Defined.

(** ** Both adapters *)

(** C10.  The first result of [transition] and of [transitionAll] is nil
    for both adapters, in every state and for every input: [extend] is
    only ever handed a slice that is not nil, so the one failure an adapter
    reports is the panic error.  For the network adapter the calls also
    return, the trace pointer being allocated before it is used. *)
Theorem adapters_err_always_nil :
  (∀ (P D L R : Type) (HL : Listener P D L) (HR : Router D R)
     (w : Concrete.ioAutomataConcrete P L R) (input : event)
     (inputs : list event),
     (∃ w' panicErr, transition w input = Ok (w', (None, panicErr)))
     ∧ (∃ w' panicErr, transitionAll w inputs = Ok (w', (None, panicErr))))
  ∧ (∀ (N : Type) (HN : RootRouter N)
       (w : ConcretePlayer.ioAutomataConcretePlayer N) (input : event)
       (inputs : list event),
       (∃ w' panicErr, transition w input = Ok (w', (None, panicErr)))
       ∧ (∃ w' panicErr, transitionAll w inputs = Ok (w', (None, panicErr)))).
Proof.
  split.
  - intros P D L R HL HR w input inputs. simpl. split.
    + pose proof (transition_err_nil w input) as H.
      destruct (Concrete.transition w input) as [w' [err p]].
      simpl in H. subst. eauto.
    + pose proof (transitionAll_err_nil w inputs) as H.
      destruct (Concrete.transitionAll w inputs) as [w' [err p]].
      simpl in H. subst. eauto.
  - intros N HN w input inputs. simpl. split.
    + destruct (player_transition_err_nil w input) as (w' & p & -> & _).
      eauto.
    + apply player_transitionAll_err_nil.
Qed.

(** C5 (as amended).  The single-listener adapter returns its visible trace
    from [getTraceVisible]; [resetTrace] empties the hidden and the visible
    trace together, and a transition that does not panic puts the pair
    [input, out] at the end of both.  The network adapter keeps one trace
    only: its [getTraceVisible] panics with "unsupported" in every state,
    and its [resetTrace] sets the trace pointer to nil. *)
Theorem getTraceVisible_of_adapters :
  (∀ (P D L R : Type) (HL : Listener P D L) (HR : Router D R)
     (w : Concrete.ioAutomataConcrete P L R),
     getTraceVisible w = Ok (Concrete.savedTrace w)
     ∧ getTrace w = Ok (Concrete.savedHiddenTrace w)
     ∧ (∃ w', resetTrace w = Ok w'
          ∧ getTrace w' = Ok emptyTrace
          ∧ getTraceVisible w' = Ok emptyTrace)
     ∧ (∀ input w' err,
          transition w input = Ok (w', (err, None)) →
          ∃ out internal,
            events (Concrete.savedHiddenTrace w')
            = events (Concrete.savedHiddenTrace w) ++ [input; out]
            ∧ events (Concrete.savedTrace w')
              = events (Concrete.savedTrace w) ++ internal ++ [input; out]))
  ∧ (∀ (N : Type) (HN : RootRouter N)
       (w : ConcretePlayer.ioAutomataConcretePlayer N),
       getTraceVisible w = Panic "unsupported"
       ∧ ∃ w', resetTrace w = Ok w'
           ∧ ConcretePlayer.savedTrace w' = None
           ∧ getTraceVisible w' = Panic "unsupported").
Proof.
  split.
  - intros P D L R HL HR w. split_and!; try reflexivity.
    + eexists. split_and!; reflexivity.
    + intros input w' err [= Ht]. by eapply transition_traces_parallel.
  - intros N HN w. split; [reflexivity |].
    eexists. split_and!; reflexivity.
Qed.

(** On [payloadPresent] the listener of the fixtures asks the router once:
    the hidden trace gets the pair, the visible trace the dispatched event
    and its answer before the pair. *)
Lemma getTraceVisible_of_adapters_witness :
  ∃ w', transition Fixtures.freshConcrete Fixtures.evPayloadPresent
        = Ok (w', (None, None))
    ∧ ∃ out internal,
        events (Concrete.savedHiddenTrace w')
        = [] ++ [Fixtures.evPayloadPresent; out]
        ∧ events (Concrete.savedTrace w')
          = [] ++ internal ++ [Fixtures.evPayloadPresent; out].
Proof.
  eexists. split; [reflexivity |].
  destruct getTraceVisible_of_adapters as [H _].
  destruct (H _ _ _ _ _ _ Fixtures.freshConcrete) as (_ & _ & _ & Ht).
  eapply (Ht Fixtures.evPayloadPresent). reflexivity.
Defined.

(** C5 (as stated) fails: on the network adapter [getTraceVisible] returns
    no trace. *)
Lemma network_getTraceVisible_unsupported :
  getTraceVisible Fixtures.freshPlayer = Panic "unsupported"
  ∧ ¬ ∃ tr, getTraceVisible Fixtures.freshPlayer = Ok tr.
Proof. split; [reflexivity |]. intros [tr Htr]. discriminate. Qed.

(** ** The validator *)

Lemma interleave_nil_r ins : interleave ins [] = [].
Proof. by destruct ins. Qed.

Lemma interleave_length ins outs :
  length outs ≤ length ins → length (interleave ins outs) = 2 * length outs.
Proof.
  revert outs. induction ins as [|i ins IH]; intros [|o outs]; simpl;
    try lia.
  intros H. rewrite IH; lia.
Qed.

Lemma interleave_wf ins outs :
  length outs ≤ length ins →
  Forall is_Some (interleave ins outs)
  ↔ Forall is_Some (take (length outs) ins) ∧ Forall is_Some outs.
Proof.
  revert outs. induction ins as [|i ins IH]; intros [|o outs]; simpl;
    try lia; intros Hlen.
  - split; [intros _; split; constructor | intros _; constructor].
  - split; [intros _; split; constructor | intros _; constructor].
  - rewrite !Forall_cons, IH by lia. tauto.
Qed.

Lemma fillAllEvents_loop_spec testCase n : ∀ i filled rest,
  length (expectedOutputs testCase) ≤ length (inputs testCase) →
  i + n = length (inputs testCase) →
  length filled = 2 * (i `min` length (expectedOutputs testCase)) →
  length rest = 2 * (length (expectedOutputs testCase) - i) →
  fillAllEvents_loop testCase i n (filled ++ rest)
  = Ok (filled ++ interleave (drop i (inputs testCase))
                             (drop i (expectedOutputs testCase))).
Proof.
  induction n as [|n IH]; intros i filled rest Hshape Hi Hfilled Hrest; simpl.
  - rewrite (drop_ge (expectedOutputs testCase)) by lia.
    rewrite interleave_nil_r.
    destruct rest; [done | simpl in Hrest; lia].
  - unfold fillAllEvents_step. case_decide as Hlt.
    + destruct (lookup_lt_is_Some_2 (inputs testCase) i) as [x Hx]; [lia |].
      destruct (lookup_lt_is_Some_2 (expectedOutputs testCase) i)
        as [y Hy]; [lia |].
      destruct rest as [|a [|b rest]]; simpl in Hrest; try lia.
      unfold index, assign. rewrite Hx, Hy. simpl.
      rewrite decide_True by (rewrite length_app; simpl; lia). simpl.
      rewrite decide_True
        by (rewrite length_insert, length_app; simpl; lia).
      simpl.
      replace (i + (i + 0)) with (length filled + 0) by lia.
      rewrite insert_app_r. simpl.
      replace (length filled + 0 + 1) with (length filled + 1) by lia.
      rewrite insert_app_r. simpl.
      rewrite (drop_S _ _ _ Hx), (drop_S _ _ _ Hy). simpl.
      change (filled ++ x :: y :: rest) with (filled ++ [x; y] ++ rest).
      rewrite (app_assoc filled [x; y] rest).
      rewrite (IH (S i) (filled ++ [x; y]) rest); try lia.
      * by rewrite <- app_assoc.
      * rewrite length_app. cbn [length]. lia.
    + simpl. destruct rest; [| simpl in Hrest; lia].
      rewrite (drop_ge (expectedOutputs testCase)) by lia.
      rewrite interleave_nil_r.
      rewrite (IH (S i) filled []); try lia.
      rewrite (drop_ge (expectedOutputs testCase)) by lia.
      by rewrite interleave_nil_r.
Qed.

(** The array the validator fills is the interleaving of the inputs and
    the expected outputs. *)
Lemma fillAllEvents_spec testCase :
  length (expectedOutputs testCase) ≤ length (inputs testCase) →
  fillAllEvents testCase
  = Ok (interleave (inputs testCase) (expectedOutputs testCase)).
Proof.
  intros Hshape. unfold fillAllEvents.
  rewrite <- (app_nil_l (replicate _ _)).
  rewrite fillAllEvents_loop_spec; try done; simpl; try lia.
  rewrite length_replicate. lia.
Qed.

Lemma checkSafetyProps_accepted sps tr :
  Forall (accepts tr) sps → checkSafetyProps sps tr = Ok (None, None).
Proof.
  induction 1 as [|sp sps [msg Hsp] _ IH]; simpl; [done |].
  rewrite Hsp. simpl. apply IH.
Qed.

Section ValidatorProperties.
Context {A : Type} `{!ioAutomata A}.

(** C6.  A test case whose inputs are neither as many as its expected
    outputs nor one more is refused at once: nil invalid verdict, the
    malformed-test-case error as run-time error, and the automaton as it
    was, whatever its methods would have done. *)
Theorem Validate_malformed_shape (testCase : determisticTraceTestCase)
    (automaton : A) :
  length (inputs testCase) ≠ length (expectedOutputs testCase) →
  length (inputs testCase) ≠ length (expectedOutputs testCase) + 1 →
  Validate testCase automaton
  = Ok (automaton, (None, Some errMalformedTestCase)).
Proof.
  intros H1 H2. unfold Validate, ValidateAsExtension.
  by rewrite decide_True.
Qed.

(** What the validator returns once the run has taken place and the
    extension of the trace has matched the expected trace. *)
Lemma Validate_after_match (testCase : determisticTraceTestCase)
    (a a' : A) (existing outputTrace : ioTrace) (panicErr : error) :
  let expected :=
    {| events := interleave (inputs testCase) (expectedOutputs testCase) |}
  in
  let extension :=
    {| events := drop (ioTrace_length existing) (events outputTrace) |} in
  length (inputs testCase) = length (expectedOutputs testCase)
  ∨ length (inputs testCase) = length (expectedOutputs testCase) + 1 →
  ioTrace_checkWellFormed expected = None →
  getTrace a = Ok existing →
  transitionAll a (inputs testCase) = Ok (a', (None, panicErr)) →
  getTrace a' = Ok outputTrace →
  ioTrace_length existing ≤ ioTrace_length outputTrace →
  containsTrace (directMatch expected) extension = Ok (true, "", None) →
  Validate testCase a =
  match checkCrashExpectation testCase panicErr with
  | Some invalidErr => Ok (a', (Some invalidErr, None))
  | None =>
      if decide (ioTrace_length outputTrace < ioTrace_length expected)
      then
        match panicErr with
        | Some p =>
            Ok (a', (Some (errPanickedEarly (ioTrace_length outputTrace)
                             (ioTrace_length expected) p), None))
        | None =>
            Ok (a', (Some (errTraceTooShort (ioTrace_length outputTrace)
                             (ioTrace_length expected)
                             expected extension), None))
        end
      else
        verdict ← checkSafetyProps (safetyProps testCase) outputTrace;
        Ok (a', verdict)
  end.
Proof.
  intros expected extension Hshape Hwf Hexisting Hrun Houtput Hlen Hmatch.
  unfold Validate, ValidateAsExtension.
  rewrite decide_False by lia.
  rewrite Hexisting. simpl.
  rewrite fillAllEvents_spec by lia. simpl.
  fold expected. rewrite Hwf, Hrun. simpl.
  rewrite Houtput. simpl.
  unfold sliceFrom. rewrite decide_True by exact Hlen. simpl.
  fold (ioTrace_length existing). fold extension.
  simpl in Hmatch. rewrite Hmatch. simpl.
  destruct (checkCrashExpectation testCase panicErr); [done |].
  case_decide; [by destruct panicErr | done].
Qed.

(** C2 (as amended).  Let the expected events be free of nil, the run
    return no ordinary error, and the extension of the trace match the
    expected trace.  With as many inputs as outputs, a panic during the
    run gives the verdict "panicked when not expected"; with one input
    more, a run without panic gives the verdict "did not panic when
    expected"; and with one input more, a run that panicked after the
    whole expected trace was produced is valid, provided every safety
    property of the test case accepts the trace.  The run-time error is
    nil in all three cases. *)
Theorem Validate_crash_expectation (testCase : determisticTraceTestCase)
    (a a' : A) (existing outputTrace : ioTrace) (panicErr : error) :
  let expected :=
    {| events := interleave (inputs testCase) (expectedOutputs testCase) |}
  in
  let extension :=
    {| events := drop (ioTrace_length existing) (events outputTrace) |} in
  ioTrace_checkWellFormed expected = None →
  getTrace a = Ok existing →
  transitionAll a (inputs testCase) = Ok (a', (None, panicErr)) →
  getTrace a' = Ok outputTrace →
  ioTrace_length existing ≤ ioTrace_length outputTrace →
  containsTrace (directMatch expected) extension = Ok (true, "", None) →
  (length (inputs testCase) = length (expectedOutputs testCase) →
   ∀ p, panicErr = Some p →
     Validate testCase a = Ok (a', (Some (errPanickedUnexpected p), None)))
  ∧ (length (inputs testCase) = length (expectedOutputs testCase) + 1 →
     panicErr = None →
     Validate testCase a = Ok (a', (Some errDidNotPanic, None)))
  ∧ (length (inputs testCase) = length (expectedOutputs testCase) + 1 →
     is_Some panicErr →
     ioTrace_length expected ≤ ioTrace_length extension →
     Forall (accepts outputTrace) (safetyProps testCase) →
     Validate testCase a = Ok (a', (None, None))).
Proof.
  intros expected extension Hwf Hexisting Hrun Houtput Hlen Hmatch.
  split_and!.
  - intros Hshape p ->.
    rewrite (Validate_after_match _ _ _ _ _ _ (or_introl Hshape)
               Hwf Hexisting Hrun Houtput Hlen Hmatch).
    unfold checkCrashExpectation. by rewrite decide_True.
  - intros Hshape ->.
    rewrite (Validate_after_match _ _ _ _ _ _ (or_intror Hshape)
               Hwf Hexisting Hrun Houtput Hlen Hmatch).
    unfold checkCrashExpectation.
    rewrite decide_False by lia. by rewrite decide_True.
  - intros Hshape [p ->] Hcover Hprops.
    rewrite (Validate_after_match _ _ _ _ _ _ (or_intror Hshape)
               Hwf Hexisting Hrun Houtput Hlen Hmatch).
    unfold checkCrashExpectation.
    rewrite decide_False by lia. rewrite decide_True by done.
    rewrite decide_False.
    + by rewrite checkSafetyProps_accepted.
    + fold expected. unfold extension, ioTrace_length in Hcover.
      simpl in Hcover. rewrite length_drop in Hcover.
      unfold ioTrace_length, expected in *. simpl. lia.
Qed.
(** The test on the length, for an automaton that starts from the empty
    trace: the extension is then the whole trace. *)
Lemma Validate_short_extension_from_empty
    (testCase : determisticTraceTestCase)
    (a a' : A) (existing outputTrace : ioTrace) (panicErr : error) :
  let expected :=
    {| events := interleave (inputs testCase) (expectedOutputs testCase) |}
  in
  let extension :=
    {| events := drop (ioTrace_length existing) (events outputTrace) |} in
  length (inputs testCase) = length (expectedOutputs testCase)
  ∨ length (inputs testCase) = length (expectedOutputs testCase) + 1 →
  ioTrace_checkWellFormed expected = None →
  getTrace a = Ok existing →
  transitionAll a (inputs testCase) = Ok (a', (None, panicErr)) →
  getTrace a' = Ok outputTrace →
  ioTrace_length existing = 0 →
  containsTrace (directMatch expected) extension = Ok (true, "", None) →
  checkCrashExpectation testCase panicErr = None →
  ioTrace_length extension < ioTrace_length expected →
  ∃ invalidErr,
    Validate testCase a = Ok (a', (Some invalidErr, None))
    ∧ invalidErr =
      match panicErr with
      | Some p => errPanickedEarly (ioTrace_length outputTrace)
                    (ioTrace_length expected) p
      | None => errTraceTooShort (ioTrace_length outputTrace)
                  (ioTrace_length expected) expected extension
      end.
Proof.
  intros expected extension Hshape Hwf Hexisting Hrun Houtput Hempty Hmatch
    Hcrash Hshort.
  rewrite (Validate_after_match _ _ _ _ _ _ Hshape Hwf Hexisting Hrun
             Houtput ltac:(lia) Hmatch).
  fold expected extension. rewrite Hcrash.
  assert (ioTrace_length outputTrace < ioTrace_length expected) as Hlt.
  { unfold extension, ioTrace_length in Hshort. simpl in Hshort.
    rewrite length_drop in Hshort.
    unfold ioTrace_length, expected in *. simpl. lia. }
  rewrite decide_True by exact Hlt.
  destruct panicErr; eauto.
Qed.
End ValidatorProperties.

Lemma Validate_malformed_shape_witness :
  @Validate unit Fixtures.unusable Fixtures.malformedCase ()
  = Ok ((), (None, Some errMalformedTestCase)).
Proof.
  apply (@Validate_malformed_shape unit Fixtures.unusable);
    simpl; lia.
Defined.

Lemma Validate_crash_expectation_witness :
  (∃ w', Validate Fixtures.panicNotExpected Fixtures.freshConcrete
         = Ok (w', (Some (errPanickedUnexpected
                            (errHandlerPanic "malformed bundle")), None)))
  ∧ (∃ w', Validate Fixtures.panicMissing Fixtures.freshConcrete
           = Ok (w', (Some errDidNotPanic, None)))
  ∧ (∃ w', Validate Fixtures.panicExpected Fixtures.freshConcrete
           = Ok (w', (None, None))).
Proof.
  split_and!; eexists.
  - destruct (Validate_crash_expectation Fixtures.panicNotExpected
                Fixtures.freshConcrete
                (Concrete.transitionAll Fixtures.freshConcrete
                   (inputs Fixtures.panicNotExpected)).1
                emptyTrace
                (Concrete.getTrace
                   (Concrete.transitionAll Fixtures.freshConcrete
                      (inputs Fixtures.panicNotExpected)).1)
                (Concrete.transitionAll Fixtures.freshConcrete
                   (inputs Fixtures.panicNotExpected)).2.2)
      as (Hpanicked & _ & _);
      [ reflexivity | reflexivity | reflexivity | reflexivity
      | unfold ioTrace_length; simpl; lia | reflexivity | ].
    apply Hpanicked; reflexivity.
  - destruct (Validate_crash_expectation Fixtures.panicMissing
                Fixtures.freshConcrete
                (Concrete.transitionAll Fixtures.freshConcrete
                   (inputs Fixtures.panicMissing)).1
                emptyTrace
                (Concrete.getTrace
                   (Concrete.transitionAll Fixtures.freshConcrete
                      (inputs Fixtures.panicMissing)).1)
                (Concrete.transitionAll Fixtures.freshConcrete
                   (inputs Fixtures.panicMissing)).2.2)
      as (_ & Hmissing & _);
      [ reflexivity | reflexivity | reflexivity | reflexivity
      | unfold ioTrace_length; simpl; lia | reflexivity | ].
    apply Hmissing; reflexivity.
  - destruct (Validate_crash_expectation Fixtures.panicExpected
                Fixtures.freshConcrete
                (Concrete.transitionAll Fixtures.freshConcrete
                   (inputs Fixtures.panicExpected)).1
                emptyTrace
                (Concrete.getTrace
                   (Concrete.transitionAll Fixtures.freshConcrete
                      (inputs Fixtures.panicExpected)).1)
                (Concrete.transitionAll Fixtures.freshConcrete
                   (inputs Fixtures.panicExpected)).2.2)
      as (_ & _ & Hexpected);
      [ reflexivity | reflexivity | reflexivity | reflexivity
      | unfold ioTrace_length; simpl; lia | reflexivity | ].
    apply Hexpected.
    + reflexivity.
    + by eexists.
    + unfold ioTrace_length. simpl. lia.
    + repeat constructor. by exists "".
Defined.

(** C2 (as stated) fails.  The listener panics on the second of two
    inputs of a test case with two outputs, and the verdict is the
    divergence of the first pair; no input makes it panic on a test case
    that is one output short, and the verdict is again the divergence; it
    panics on the final input after the expected trace, and the verdict is
    that of the safety property that rejects the trace. *)
Lemma Validate_divergence_and_rejection_come_first :
  (length (inputs Fixtures.panicAfterDivergence)
   = length (expectedOutputs Fixtures.panicAfterDivergence)
   ∧ ∃ w' expected actual,
       transitionAll Fixtures.freshConcrete
         (inputs Fixtures.panicAfterDivergence)
       = Ok (w', (None, Some (errHandlerPanic "malformed bundle")))
       ∧ Validate Fixtures.panicAfterDivergence Fixtures.freshConcrete
         = Ok (w', (Some (errIOTraceDiverge expected actual), None)))
  ∧ (length (inputs Fixtures.noPanicAfterDivergence)
     = length (expectedOutputs Fixtures.noPanicAfterDivergence) + 1
     ∧ ∃ w' expected actual,
         transitionAll Fixtures.freshConcrete
           (inputs Fixtures.noPanicAfterDivergence)
         = Ok (w', (None, None))
         ∧ Validate Fixtures.noPanicAfterDivergence
             Fixtures.freshConcrete
           = Ok (w', (Some (errIOTraceDiverge expected actual), None)))
  ∧ (length (inputs Fixtures.panicExpectedRejected)
     = length (expectedOutputs Fixtures.panicExpectedRejected) + 1
     ∧ ∃ w',
         transitionAll Fixtures.freshConcrete
           (inputs Fixtures.panicExpectedRejected)
         = Ok (w', (None, Some (errHandlerPanic "malformed bundle")))
         ∧ events (Concrete.savedHiddenTrace w')
           = interleave (inputs Fixtures.panicExpectedRejected)
               (expectedOutputs Fixtures.panicExpectedRejected)
         ∧ Validate Fixtures.panicExpectedRejected
             Fixtures.freshConcrete
           = Ok (w', (Some (errNotInSafetyProp "rejected"), None))).
Proof.
  split; [| split]; (split; [reflexivity |]).
  - do 3 eexists. split; reflexivity.
  - do 3 eexists. split; reflexivity.
  - eexists. split_and!; reflexivity.
Qed.

(** C3.  The adapter of the fixtures has made one transition, so that its
    hidden trace holds two events.  A test case that expects the panic on
    its second input is run on it, and the listener panics on the first:
    the extension of the trace is empty where two events are expected, and
    the validator, which compares the length of the whole trace with the
    expected length, returns no verdict and no error. *)
Theorem Validate_extension_shorter_than_expected :
  let w := Fixtures.advancedConcrete in
  let testCase := Fixtures.panicEarly in
  ∃ w',
    getTrace w = Ok {| events := [Fixtures.evTimeout; Fixtures.evNewRound] |}
    ∧ transitionAll w (inputs testCase)
      = Ok (w', (None, Some (errHandlerPanic "malformed bundle")))
    ∧ getTrace w'
      = Ok {| events := [Fixtures.evTimeout; Fixtures.evNewRound] |}
    ∧ length (interleave (inputs testCase) (expectedOutputs testCase)) = 2
    ∧ Validate testCase w = Ok (w', (None, None)).
Proof. eexists. split_and!; reflexivity. Qed.

(** On an automaton that starts from the empty trace the same test case
    gets the verdict "panicked early". *)
Lemma Validate_panicked_early_on_fresh :
  ∃ w', Validate Fixtures.panicEarly Fixtures.freshConcrete
        = Ok (w', (Some (errPanickedEarly 0 2
                           (errHandlerPanic "malformed bundle")), None)).
Proof. eexists. reflexivity. Qed.

(** * Further properties *)

(** ** Well-formedness, rendering and queries of traces *)

Lemma checkWellFormed_loop_cases es :
  checkWellFormed_loop es = None
  ∨ checkWellFormed_loop es = Some errTraceContainsNil.
Proof. induction es as [|[o|] es IH]; simpl; auto. Qed.


Lemma String_loop_well_formed es : ∀ i buf,
  Forall is_Some es → ∃ s, String_loop i es buf = Ok s.
Proof.
  induction es as [|e es IH]; intros i buf Hwf; simpl; [eauto |].
  inversion Hwf as [|? ? [o ->] Hes]; subst. simpl. apply IH, Hes.
Qed.

Lemma String_loop_nil_event es : ∀ i buf,
  ¬ Forall is_Some es → String_loop i es buf = Panic nilDereference.
Proof.
  induction es as [|[o|] es IH]; intros i buf Hwf; simpl.
  - destruct Hwf. constructor.
  - apply IH. intros Hes. apply Hwf. constructor; [by eexists | done].
  - done.
Qed.



Lemma CountEvent_loop_well_formed es o : ∀ count,
  Forall is_Some es →
  ioTrace_CountEvent_loop es (Some o) count
  = Ok (count + length (withFingerprint (ComparableStr o) es)).
Proof.
  unfold withFingerprint.
  induction es as [|e es IH]; intros count Hwf; simpl.
  - f_equal. lia.
  - inversion Hwf as [|? ? [x ->] Hes]; subst. simpl.
    rewrite IH by done. rewrite filter_cons. simpl.
    destruct (decide (ComparableStr x = ComparableStr o)) as [Heq|Hne].
    + rewrite decide_True by (by rewrite Heq). simpl. f_equal. lia.
    + rewrite decide_False by congruence. done.
Qed.

Lemma Contains_loop_well_formed es o :
  Forall is_Some es →
  ioTrace_ContainsFn_loop
    (λ b, x ← event_ComparableStr (Some o);
          y ← event_ComparableStr b;
          Ok (bool_decide (x = y))) es
  = Ok (bool_decide (0 < length (withFingerprint (ComparableStr o) es))).
Proof.
  unfold withFingerprint.
  induction 1 as [|e es [x ->] Hes IH]; [done |].
  cbn [ioTrace_ContainsFn_loop event_ComparableStr mbind result_bind].
  rewrite filter_cons. cbn [fmap option_fmap option_map].
  destruct (decide (ComparableStr x = ComparableStr o)) as [Heq|Hne].
  - rewrite bool_decide_true by done.
    rewrite decide_True by (by rewrite Heq).
    by rewrite bool_decide_true by (simpl; lia).
  - rewrite bool_decide_false by congruence.
    by rewrite decide_False by congruence.
Qed.



Lemma prefix_refl s : String.prefix s s = true.
Proof.
  induction s as [|a s IH]; simpl; [done |].
  by destruct (Ascii.ascii_dec a a).
Qed.

Lemma strings_Contains_refl s : strings_Contains s s = true.
Proof.
  destruct s as [|a s]; [done |].
  cbn [strings_Contains]. by rewrite prefix_refl.
Qed.

Lemma strings_Contains_empty s : strings_Contains s "" = true.
Proof. by destruct s. Qed.

Lemma ContainsFn_loop_well_formed (f : eventObj → bool) es :
  Forall is_Some es →
  ∃ b, ioTrace_ContainsFn_loop
         (λ e, x ← event_ComparableStr e; Ok (f (mkEvent none "" x))) es
       = Ok b
    ∧ (b = true ↔ ∃ o, Some o ∈ es ∧ f (mkEvent none "" (ComparableStr o))
                                     = true).
Proof.
  induction 1 as [|e es [x ->] Hes (b & IH & Hb)]; simpl.
  - exists false. split; [done |]. split; [done |].
    intros (o & Hin & _). by apply elem_of_nil in Hin.
  - destruct (f _) eqn:Hf.
    + exists true. split; [done |]. split; [| done].
      intros _. exists x. split; [left | done].
    + exists b. split; [done |]. rewrite Hb. split.
      * intros (o & Hin & Ho). exists o. split; [by right | done].
      * intros (o & Hin & Ho). apply elem_of_cons in Hin as [[= ->]|Hin].
        -- congruence.
        -- eauto.
Qed.



Lemma countAction_loop_well_formed es : ∀ count,
  Forall is_Some es →
  ioTrace_countAction_loop es count
  = Ok (count + length (wrappedActions es)).
Proof.
  unfold wrappedActions.
  induction es as [|e es IH]; intros count Hwf; simpl.
  - f_equal. lia.
  - inversion Hwf as [|? ? [x ->] Hes]; subst. simpl.
    rewrite IH by done. rewrite filter_cons. simpl.
    destruct (decide (evt x = wrappedAction)) as [Heq|Hne].
    + rewrite decide_True by (by rewrite Heq). simpl. f_equal. lia.
    + rewrite decide_False by congruence. done.
Qed.

Lemma countAction_loop_nil_event es : ∀ count,
  ¬ Forall is_Some es →
  ioTrace_countAction_loop es count = Panic nilDereference.
Proof.
  induction es as [|[o|] es IH]; intros count Hwf; simpl.
  - destruct Hwf. constructor.
  - apply IH. intros Hes. apply Hwf. constructor; [by eexists | done].
  - done.
Qed.

Lemma wrappedActions_ev actions : wrappedActions (ev <$> actions) = ev <$> actions.
Proof.
  unfold wrappedActions. induction actions as [|a actions IH]; [done |].
  rewrite fmap_cons, filter_cons. simpl. by rewrite IH.
Qed.

(** X5.  [countAction] returns a count exactly for the traces that pass
    [checkWellFormed], and panics on the others.  The count is the number
    of events of type [wrappedAction]: the counts of two traces add up
    when one is appended to the other, and every event made by [ev]
    counts. *)
Theorem countAction_counts_wrapped_actions (t : ioTrace) :
  (ioTrace_checkWellFormed t = None →
   ioTrace_countAction t = Ok (length (wrappedActions (events t))))
  ∧ (ioTrace_checkWellFormed t ≠ None →
     ioTrace_countAction t = Panic nilDereference)
  ∧ (∀ es n m,
       ioTrace_countAction t = Ok n →
       ioTrace_countAction {| events := es |} = Ok m →
       ioTrace_countAction (ioTrace_extend t (Some es)).1 = Ok (n + m))
  ∧ (∀ actions n,
       ioTrace_countAction t = Ok n →
       ioTrace_countAction (ioTrace_extend t (Some (ev <$> actions))).1
       = Ok (n + length actions)).
Proof.
  assert (∀ t' k, ioTrace_countAction t' = Ok k →
            Forall is_Some (events t')
            ∧ k = length (wrappedActions (events t'))) as Hinv.
  { intros t' k Hk. unfold ioTrace_countAction in Hk.
    destruct (decide (Forall is_Some (events t'))) as [Hwf|Hwf].
    - rewrite countAction_loop_well_formed in Hk by done.
      injection Hk as <-. done.
    - by rewrite countAction_loop_nil_event in Hk. }
  assert (∀ es n m,
            ioTrace_countAction t = Ok n →
            ioTrace_countAction {| events := es |} = Ok m →
            ioTrace_countAction (ioTrace_extend t (Some es)).1
            = Ok (n + m)) as Hadd.
  { intros es n m Hn Hm.
    apply Hinv in Hn as [Hwf ->]. apply Hinv in Hm as [Hes ->].
    simpl in Hes. unfold ioTrace_countAction. simpl.
    rewrite countAction_loop_well_formed by (by apply Forall_app).
    unfold wrappedActions. by rewrite filter_app, length_app. }
  split_and!.
  - intros Hwf. apply checkWellFormed_loop_None in Hwf.
    unfold ioTrace_countAction.
    by rewrite countAction_loop_well_formed.
  - intros Hwf. unfold ioTrace_countAction.
    apply countAction_loop_nil_event.
    by rewrite <- checkWellFormed_loop_None.
  - exact Hadd.
  - intros actions n Hn. apply Hadd; [done |].
    unfold ioTrace_countAction. simpl.
    rewrite countAction_loop_well_formed.
    + by rewrite wrappedActions_ev, length_fmap.
    + apply Forall_fmap, Forall_true. intros a. by eexists.
Qed.

Lemma countAction_counts_wrapped_actions_witness :
  ioTrace_countAction
    {| events := [Fixtures.evTimeout; ev Fixtures.actNewRound] |} = Ok 1
  ∧ ioTrace_countAction {| events := [None] |} = Panic nilDereference.
Proof.
  split.
  - exact (proj1 (countAction_counts_wrapped_actions
                    {| events := [Fixtures.evTimeout;
                                  ev Fixtures.actNewRound] |}) eq_refl).
  - apply (proj1 (proj2 (countAction_counts_wrapped_actions _))).
    discriminate.
Defined.

(** ** More on the direct-match property *)

Lemma directMatch_loop_sym trace ref :
  directMatch_loop trace ref = Ok (true, "", None)
  ↔ directMatch_loop ref trace = Ok (true, "", None).
Proof.
  rewrite !directMatch_loop_true. split; intros H i c r Hc Hr;
    destruct (H i r c Hr Hc) as (x & y & -> & -> & Heq); eauto.
Qed.

Lemma directMatch_loop_take trace ref n m :
  directMatch_loop trace ref = Ok (true, "", None) →
  directMatch_loop (take n trace) (take m ref) = Ok (true, "", None).
Proof.
  rewrite !directMatch_loop_true. intros H i c r Hc Hr.
  apply lookup_take_Some in Hc as [Hc _].
  apply lookup_take_Some in Hr as [Hr _]. eauto.
Qed.

(** X6.  Direct match is symmetric: the property built from [r] contains
    [t] exactly when the property built from [t] contains [r].  It is
    closed under cutting either trace short, so that the empty trace is
    contained in every property and the property built from the empty trace
    contains every trace. *)
Theorem directMatch_symmetric_and_prefix_closed (r t : ioTrace) :
  (containsTrace (directMatch r) t = Ok (true, "", None)
   ↔ containsTrace (directMatch t) r = Ok (true, "", None))
  ∧ (containsTrace (directMatch r) t = Ok (true, "", None) →
     ∀ n m,
       containsTrace (directMatch {| events := take m (events r) |})
                     {| events := take n (events t) |}
       = Ok (true, "", None))
  ∧ containsTrace (directMatch r) emptyTrace = Ok (true, "", None)
  ∧ containsTrace (directMatch emptyTrace) t = Ok (true, "", None).
Proof.
  simpl. unfold directMatch_containsTrace. simpl. split_and!.
  - apply directMatch_loop_sym.
  - intros H n m. by apply directMatch_loop_take.
  - done.
  - by destruct (events t).
Qed.

Lemma directMatch_symmetric_and_prefix_closed_witness :
  containsTrace (directMatch {| events := [Fixtures.evTimeout] |})
                {| events := take 1 [Fixtures.evTimeout;
                                     Fixtures.evNewRound] |}
  = Ok (true, "", None).
Proof.
  apply (proj1 (proj2 (directMatch_symmetric_and_prefix_closed
                         {| events := [Fixtures.evTimeout] |}
                         {| events := [Fixtures.evTimeout;
                                       Fixtures.evNewRound] |}))
           eq_refl 1 1).
Defined.

Lemma fingerprintAt_cons_0 (e : event) (es : list event) :
  fingerprintAt {| events := e :: es |} 0 = ComparableStr <$> e.
Proof. by destruct e. Qed.

Lemma fingerprintAt_cons_S (e : event) (es : list event) i :
  fingerprintAt {| events := e :: es |} (S i)
  = fingerprintAt {| events := es |} i.
Proof. done. Qed.

Lemma firstMismatch_cons (c r : eventObj) (trace ref : list event) i :
  firstMismatch {| events := Some c :: trace |} {| events := Some r :: ref |}
                (S i)
  ↔ ComparableStr c = ComparableStr r
    ∧ firstMismatch {| events := trace |} {| events := ref |} i.
Proof.
  unfold firstMismatch. split.
  - intros [(a & b & Ha & Hb & Hab) Hbefore].
    rewrite fingerprintAt_cons_S in Ha, Hb. split_and!.
    + destruct (Hbefore 0) as (s & Hs1 & Hs2); [lia |].
      rewrite fingerprintAt_cons_0 in Hs1, Hs2. simpl in *. congruence.
    + eauto.
    + intros j Hj. destruct (Hbefore (S j)) as (s & Hs1 & Hs2); [lia |].
      rewrite fingerprintAt_cons_S in Hs1, Hs2. eauto.
  - intros (Heq & (a & b & Ha & Hb & Hab) & Hbefore). split.
    + exists a, b. by rewrite !fingerprintAt_cons_S.
    + intros [|j] Hj.
      * exists (ComparableStr c). rewrite !fingerprintAt_cons_0.
        split; simpl; congruence.
      * rewrite !fingerprintAt_cons_S. apply Hbefore. lia.
Qed.

Lemma directMatch_loop_false trace ref :
  directMatch_loop trace ref = Ok (false, "", None)
  ↔ ∃ i, firstMismatch {| events := trace |} {| events := ref |} i.
Proof.
  revert ref. induction trace as [|c trace IH]; intros [|r ref]; simpl.
  - split; [done |]. intros (i & (a & b & Ha & _) & _). by destruct i.
  - split; [done |]. intros (i & (a & b & Ha & _) & _). by destruct i.
  - split; [done |]. intros (i & (a & b & _ & Hb & _) & _). by destruct i.
  - destruct c as [c|]; simpl.
    2:{ split; [done |]. intros ([|i] & (a & b & Ha & _) & Hbefore).
        - by rewrite fingerprintAt_cons_0 in Ha.
        - destruct (Hbefore 0) as (s & Hs & _); [lia |].
          by rewrite fingerprintAt_cons_0 in Hs. }
    destruct r as [r|]; simpl.
    2:{ split; [done |]. intros ([|i] & (a & b & _ & Hb & _) & Hbefore).
        - by rewrite fingerprintAt_cons_0 in Hb.
        - destruct (Hbefore 0) as (s & _ & Hs); [lia |].
          by rewrite fingerprintAt_cons_0 in Hs. }
    case_decide as Hne.
    + split; [intros _ | done]. exists 0. split; [| intros j; lia].
      exists (ComparableStr c), (ComparableStr r).
      by rewrite !fingerprintAt_cons_0.
    + rewrite IH. split.
      * intros [i Hi]. exists (S i). by apply firstMismatch_cons.
      * intros ([|i] & Hi).
        -- destruct Hi as ((a & b & Ha & Hb & Hab) & _).
           rewrite fingerprintAt_cons_0 in Ha, Hb. simpl in *. congruence.
        -- apply firstMismatch_cons in Hi as [_ Hi]. eauto.
Qed.



(** ** The wrapper of property checkers *)

Section WrapperProperties.
Context {C : Type} `{!ioPropChecker C} (Error : error_val → string).

Lemma ioPropWrapper_loop_Ok (c : C) es b info err :
  ioPropWrapper_loop Error c es = Ok (b, info, err) →
  err = None ∧ (b = true → info = "").
Proof.
  revert c. induction es as [|e es IH]; intros c; simpl.
  - by intros [= <- <- <-].
  - destruct (addEvent c e) as [[c' [v|]]|r]; simpl; [| apply IH | done].
    by intros [= <- <- <-].
Qed.

Lemma ioPropWrapper_loop_rejected (c : C) es more msg :
  ioPropWrapper_loop Error c es = Ok (false, msg, None) →
  ioPropWrapper_loop Error c (es ++ more) = Ok (false, msg, None).
Proof.
  revert c. induction es as [|e es IH]; intros c; simpl; [done |].
  destruct (addEvent c e) as [[c' [v|]]|r]; simpl; [done | apply IH | done].
Qed.

Lemma ioPropWrapper_loop_accepted (c : C) es more :
  ioPropWrapper_loop Error c (es ++ more) = Ok (true, "", None) →
  ioPropWrapper_loop Error c es = Ok (true, "", None).
Proof.
  revert c. induction es as [|e es IH]; intros c; simpl; [done |].
  destruct (addEvent c e) as [[c' [v|]]|r]; simpl; [done | apply IH | done].
Qed.

(** X8.  The wrapper asks the factory for a checker before it looks at the
    trace, so a panic of the factory is the panic of [containsTrace].  With
    a checker at hand, a trace that holds a nil event is not shown to the
    checker: the answer is false with the error of [checkWellFormed].  In
    every answer, true comes without message and without error, and an
    error comes only with false and for a trace that is not well formed. *)
Theorem ioPropWrapper_answers (w : ioPropWrapper C) (t : ioTrace) :
  (∀ r, newPropChecker w = Panic r →
        ioPropWrapper_containsTrace Error w t = Panic r)
  ∧ (∀ c, newPropChecker w = Ok c →
          ioTrace_checkWellFormed t ≠ None →
          ioPropWrapper_containsTrace Error w t
          = Ok (false, "", Some errTraceContainsNil))
  ∧ (∀ b info err,
       ioPropWrapper_containsTrace Error w t = Ok (b, info, err) →
       (b = true → info = "" ∧ err = None)
       ∧ (err ≠ None →
          b = false ∧ info = "" ∧ ioTrace_checkWellFormed t ≠ None)).
Proof.
  unfold ioPropWrapper_containsTrace, ioTrace_checkWellFormed. split_and!.
  - by intros r ->.
  - intros c -> Hwf. simpl.
    by destruct (checkWellFormed_loop_cases (events t)) as [H | ->].
  - intros b info err.
    destruct (newPropChecker w) as [c|r]; simpl; [| done].
    destruct (checkWellFormed_loop (events t)) as [e|] eqn:Hwf.
    + intros [= <- <- <-]. split; [done |]. by intros _.
    + intros Hloop. apply ioPropWrapper_loop_Ok in Hloop as [-> Hinfo].
      split; [by intros ?%Hinfo | done].
Qed.

(** X9.  Rejection by the wrapper is final and acceptance is closed under
    prefixes: when a trace is rejected with a message, every well-formed
    trace that extends it is rejected with the same message; when a trace
    is accepted, every trace it extends is accepted. *)
Theorem ioPropWrapper_rejection_is_final (w : ioPropWrapper C)
    (t : ioTrace) (more : list event) :
  let longer := (ioTrace_extend t (Some more)).1 in
  (∀ msg,
     ioTrace_checkWellFormed longer = None →
     ioPropWrapper_containsTrace Error w t = Ok (false, msg, None) →
     ioPropWrapper_containsTrace Error w longer = Ok (false, msg, None))
  ∧ (ioPropWrapper_containsTrace Error w longer = Ok (true, "", None) →
     ioPropWrapper_containsTrace Error w t = Ok (true, "", None)).
Proof.
  simpl. unfold ioPropWrapper_containsTrace, ioTrace_checkWellFormed.
  simpl. split.
  - intros msg Hwf. rewrite Hwf.
    destruct (newPropChecker w) as [c|r]; simpl; [| done].
    destruct (checkWellFormed_loop (events t)); [done |].
    apply ioPropWrapper_loop_rejected.
  - destruct (newPropChecker w) as [c|r]; simpl; [| done].
    destruct (checkWellFormed_loop (events t ++ more)) eqn:Hwf; [done |].
    apply checkWellFormed_loop_None, Forall_app in Hwf as [Hwf _].
    apply checkWellFormed_loop_None in Hwf. rewrite Hwf.
    apply ioPropWrapper_loop_accepted.
Qed.
End WrapperProperties.

Lemma ioPropWrapper_answers_witness :
  ioPropWrapper_containsTrace MoreFixtures.messageOf
    {| newPropChecker := Ok 0 |}
    {| events := [Fixtures.evTimeout; None] |}
  = Ok (false, "", Some errTraceContainsNil).
Proof.
  apply (proj1 (proj2 (ioPropWrapper_answers MoreFixtures.messageOf
                         {| newPropChecker := Ok 0 |} _)) 0 eq_refl).
  discriminate.
Defined.

Lemma ioPropWrapper_rejection_is_final_witness :
  ioPropWrapper_containsTrace MoreFixtures.messageOf
    {| newPropChecker := Ok 0 |}
    {| events := [Fixtures.evTimeout; Fixtures.evBundleMalformed]
                 ++ [Fixtures.evNewRound] |}
  = Ok (false, "malformed", None).
Proof.
  apply (proj1 (ioPropWrapper_rejection_is_final MoreFixtures.messageOf
                  {| newPropChecker := Ok 0 |}
                  {| events := [Fixtures.evTimeout;
                                Fixtures.evBundleMalformed] |}
                  [Fixtures.evNewRound]));
    reflexivity.
Defined.

(** X10.  The wrapper around the checker of the accept-all property
    accepts every well-formed trace, as [ioPropAll] does; on a trace that
    holds a nil event the two differ: [ioPropAll] accepts it, the wrapper
    reports the error. *)
Theorem ioPropAll_wrapped (Error : error_val → string) (t : ioTrace) :
  let wrapped :=
    ioPropWrapper_prop Error {| newPropChecker := ioPropAll_newPropChecker |}
  in
  containsTrace ioPropAll t = Ok (true, "", None)
  ∧ (ioTrace_checkWellFormed t = None →
     containsTrace wrapped t = Ok (true, "", None))
  ∧ (ioTrace_checkWellFormed t ≠ None →
     containsTrace wrapped t = Ok (false, "", Some errTraceContainsNil)).
Proof.
  simpl. unfold ioPropWrapper_containsTrace, ioTrace_checkWellFormed. simpl.
  split_and!; [done | |].
  - intros ->. induction (events t) as [|e es IH]; [done | apply IH].
  - intros Hwf. by destruct (checkWellFormed_loop_cases (events t)) as [H | ->].
Qed.

Lemma ioPropAll_wrapped_witness :
  containsTrace
    (ioPropWrapper_prop MoreFixtures.messageOf
       {| newPropChecker := ioPropAll_newPropChecker |})
    {| events := [None] |}
  = Ok (false, "", Some errTraceContainsNil).
Proof.
  apply (proj2 (proj2 (ioPropAll_wrapped MoreFixtures.messageOf
                         {| events := [None] |}))).
  discriminate.
Defined.

(** ** Runs of the single-listener adapter *)

Section ConcreteRuns.
Context {P D L R : Type} `{!Listener P D L, !Router D R}.

Local Abbreviation W := (Concrete.ioAutomataConcrete P L R).

Lemma withHandle_fields (w : W) :
  Concrete.listener (Concrete.withHandle w) = Concrete.listener w
  ∧ Concrete.routerCtx (Concrete.withHandle w) = Concrete.routerCtx w
  ∧ Concrete.playerCtx (Concrete.withHandle w) = Concrete.playerCtx w
  ∧ Concrete.savedHiddenTrace (Concrete.withHandle w)
    = Concrete.savedHiddenTrace w
  ∧ Concrete.savedTrace (Concrete.withHandle w) = Concrete.savedTrace w.
Proof. unfold Concrete.withHandle. by destruct (Concrete.rHandle w). Qed.

Lemma interleave_snoc ins outs i o more :
  length ins = length outs →
  interleave (ins ++ i :: more) (outs ++ [o]) = interleave ins outs ++ [i; o].
Proof.
  revert outs. induction ins as [|x ins IH]; intros [|y outs] Hlen;
    simpl in *; try lia.
  - by destruct more.
  - by rewrite IH by lia.
Qed.

Lemma interleave_app_l ins outs more :
  length ins = length outs →
  interleave (ins ++ more) outs = interleave ins outs.
Proof.
  revert outs. induction ins as [|x ins IH]; intros [|y outs] Hlen;
    simpl in *; try lia.
  - by destruct more.
  - by rewrite IH by lia.
Qed.

Lemma transitionAll_hidden (inputs : list event) : ∀ (w w' : W) err panicErr,
  Concrete.transitionAll w inputs = (w', (err, panicErr)) →
  ∃ outs,
    events (Concrete.savedHiddenTrace w')
    = events (Concrete.savedHiddenTrace w) ++ interleave inputs outs
    ∧ length outs ≤ length inputs
    ∧ (panicErr = None ↔ length outs = length inputs).
Proof.
  induction inputs as [|input inputs IH]; intros w w' err panicErr; simpl.
  - intros [= <- <- <-]. exists []. by rewrite app_nil_r.
  - rewrite transition_unfold. simpl.
    destruct (Concrete.runHandler _ _) as [w1 [out|v]] eqn:Hrun;
      apply runHandler_traces in Hrun as [Hh _];
      rewrite (proj1 (proj2 (proj2 (proj2 (withHandle_fields w))))) in Hh.
    + intros Hrest. apply IH in Hrest as (outs & Hhidden & Hlen & Hiff).
      simpl in Hhidden. exists (out :: outs). split_and!.
      * rewrite Hhidden, Hh, <- !app_assoc. done.
      * simpl. lia.
      * rewrite Hiff. simpl. lia.
    + intros [= <- <- <-]. exists []. rewrite app_nil_r, Hh.
      split_and!; [done | simpl; lia |]. split; [done | simpl; lia].
Qed.

Lemma transition_sublist (w : W) (input : event) :
  events (Concrete.savedHiddenTrace w)
    `sublist_of` events (Concrete.savedTrace w) →
  events (Concrete.savedHiddenTrace (Concrete.transition w input).1)
    `sublist_of` events (Concrete.savedTrace (Concrete.transition w input).1).
Proof.
  intros Hsub. rewrite transition_unfold. simpl.
  destruct (Concrete.runHandler _ _) as [w1 [out|v]] eqn:Hrun;
    apply runHandler_traces in Hrun as [Hh [internal Hv]];
    destruct (withHandle_fields w) as (_ & _ & _ & Hwh & Hwv);
    rewrite Hwh in Hh; rewrite Hwv in Hv; simpl; rewrite Hh, Hv.
  - rewrite <- !app_assoc. apply sublist_app; [done |].
    by apply sublist_inserts_l.
  - by apply sublist_inserts_r.
Qed.

(** X12.  The hidden trace stays a subsequence of the visible trace:
    [resetTrace] makes it one, and [transition] and [transitionAll] keep it
    one, whether the handler returns or panics. *)
Theorem hidden_trace_subsequence_of_visible (w : W) (inputs : list event) :
  events (Concrete.savedHiddenTrace (Concrete.resetTrace w))
    `sublist_of` events (Concrete.savedTrace (Concrete.resetTrace w))
  ∧ (events (Concrete.savedHiddenTrace w)
       `sublist_of` events (Concrete.savedTrace w) →
     events (Concrete.savedHiddenTrace (Concrete.transitionAll w inputs).1)
       `sublist_of`
     events (Concrete.savedTrace (Concrete.transitionAll w inputs).1)).
Proof.
  split; [done |].
  revert w. induction inputs as [|input inputs IH]; intros w Hsub; simpl;
    [done |].
  pose proof (transition_sublist w input Hsub) as Hstep.
  destruct (Concrete.transition w input) as [w1 [[e|] [p|]]]; simpl in *;
    try done.
  by apply IH.
Qed.

(** X13.  [transitionAll] on a list of inputs followed by another is
    [transitionAll] on the first list and then, unless that reports a
    panic, on the second list from the state reached; on a single input it
    is [transition]. *)
Theorem transitionAll_app (w : W) (xs ys : list event) :
  Concrete.transitionAll w (xs ++ ys)
  = (let '(w1, (err, panicErr)) := Concrete.transitionAll w xs in
     match err, panicErr with
     | None, None => Concrete.transitionAll w1 ys
     | _, _ => (w1, (err, panicErr))
     end)
  ∧ ∀ x, Concrete.transitionAll w [x] = Concrete.transition w x.
Proof.
  split.
  - revert w. induction xs as [|x xs IH]; intros w; simpl.
    + by destruct (Concrete.transitionAll w ys) as [w1 [err p]].
    + destruct (Concrete.transition w x) as [w1 [[e|] [p|]]]; auto.
  - intros x. simpl.
    by destruct (Concrete.transition w x) as [w1 [[e|] [p|]]].
Qed.
End ConcreteRuns.

Lemma hidden_trace_subsequence_of_visible_witness :
  events (Concrete.savedHiddenTrace
            (Concrete.transitionAll Fixtures.freshConcrete
               [Fixtures.evPayloadPresent; Fixtures.evBundleMalformed]).1)
    `sublist_of`
  events (Concrete.savedTrace
            (Concrete.transitionAll Fixtures.freshConcrete
               [Fixtures.evPayloadPresent; Fixtures.evBundleMalformed]).1).
Proof.
  apply (proj2 (hidden_trace_subsequence_of_visible
                  Fixtures.freshConcrete _)).
  simpl. constructor.
Defined.

(** ** The traces do not steer the machine *)

Section TracesDoNotSteer.
Context {P D L R : Type} `{!Listener P D L, !Router D R}.

Local Abbreviation W := (Concrete.ioAutomataConcrete P L R).

Lemma sameGrowth_refl v1 v2 : sameGrowth v1 v2 v1 v2.
Proof. exists []. by rewrite !app_nil_r. Qed.

Lemma sameGrowth_trans v1 v2 t1 t2 u1 u2 :
  sameGrowth v1 v2 t1 t2 → sameGrowth t1 t2 u1 u2 → sameGrowth v1 v2 u1 u2.
Proof.
  intros (m1 & H1 & H2) (m2 & H3 & H4). exists (m1 ++ m2).
  by rewrite H3, H4, H1, H2, <- !app_assoc.
Qed.

Lemma sameGrowth_extend v1 v2 t1 t2 es :
  sameGrowth v1 v2 t1 t2 →
  sameGrowth v1 v2 {| events := events t1 ++ es |}
                   {| events := events t2 ++ es |}.
Proof.
  intros (m & H1 & H2). exists (m ++ es). simpl.
  by rewrite H1, H2, <- !app_assoc.
Qed.

Lemma runHandler_same (p : handlerRun D L) : ∀ (w1 w2 : W),
  Concrete.routerCtx w1 = Concrete.routerCtx w2 →
  Concrete.playerCtx w1 = Concrete.playerCtx w2 →
  let r1 := Concrete.runHandler p w1 in
  let r2 := Concrete.runHandler p w2 in
  r1.2 = r2.2
  ∧ sameMachine r1.1 r2.1
  ∧ sameGrowth (Concrete.savedTrace w1) (Concrete.savedTrace w2)
               (Concrete.savedTrace r1.1) (Concrete.savedTrace r2.1).
Proof.
  induction p as [l out | l v | l ctx e k IH]; intros w1 w2 Hr Hp; simpl.
  - split_and!; [done | done | apply sameGrowth_refl].
  - split_and!; [done | done | apply sameGrowth_refl].
  - unfold Concrete.dispatch. simpl. rewrite Hr.
    destruct (router_dispatch (Concrete.routerCtx w2) ctx e)
      as [r [out|v]]; simpl.
    + match goal with
      | |- context [Concrete.runHandler (k out) ?a] =>
          match goal with
          | |- context [(Concrete.runHandler (k out) ?b).2
                        = (Concrete.runHandler (k out) ?c).2] =>
              destruct (IH out b c eq_refl Hp) as (Ho & Hm & Hg)
          end
      end.
      split_and!; [done | done |].
      eapply sameGrowth_trans; [| exact Hg]. simpl.
      exists [e; out]. by rewrite <- !app_assoc.
    + split_and!; [done | done |]. by exists [e].
Qed.

Lemma transition_same (w1 w2 : W) (input : event) :
  sameMachine w1 w2 →
  let r1 := Concrete.transition w1 input in
  let r2 := Concrete.transition w2 input in
  r1.2 = r2.2
  ∧ sameMachine r1.1 r2.1
  ∧ sameGrowth (Concrete.savedHiddenTrace w1) (Concrete.savedHiddenTrace w2)
               (Concrete.savedHiddenTrace r1.1)
               (Concrete.savedHiddenTrace r2.1)
  ∧ sameGrowth (Concrete.savedTrace w1) (Concrete.savedTrace w2)
               (Concrete.savedTrace r1.1) (Concrete.savedTrace r2.1).
Proof.
  intros (Hl & Hr & Hp). simpl. rewrite !transition_unfold. simpl.
  destruct (withHandle_fields w1) as (Hl1 & Hr1 & Hp1 & Hh1 & Hv1).
  destruct (withHandle_fields w2) as (Hl2 & Hr2 & Hp2 & Hh2 & Hv2).
  rewrite Hl1, Hp1, Hl2, Hp2, Hl, Hp.
  pose proof (runHandler_same
                (handle (Concrete.listener w2) (Concrete.playerCtx w2) input)
                (Concrete.withHandle w1) (Concrete.withHandle w2)
                ltac:(congruence) ltac:(congruence)) as Hsame.
  simpl in Hsame. rewrite Hv1, Hv2 in Hsame.
  destruct (Concrete.runHandler _ (Concrete.withHandle w1))
    as [u1 o1] eqn:Hrun1.
  destruct (Concrete.runHandler _ (Concrete.withHandle w2))
    as [u2 o2] eqn:Hrun2.
  apply runHandler_traces in Hrun1 as [Hu1 _].
  apply runHandler_traces in Hrun2 as [Hu2 _].
  rewrite Hh1 in Hu1. rewrite Hh2 in Hu2.
  simpl in Hsame. destruct Hsame as (<- & Hm & Hg).
  destruct o1 as [out|v]; simpl.
  - split_and!; [done | exact Hm | |].
    + rewrite Hu1, Hu2. exists [input; out]. simpl.
      by rewrite <- !app_assoc.
    + rewrite <- app_assoc.
      rewrite <- (app_assoc (events (Concrete.savedTrace u2))).
      by apply (sameGrowth_extend _ _ _ _ ([input] ++ [out])).
  - split_and!; [done | exact Hm | | exact Hg].
    rewrite Hu1, Hu2. apply sameGrowth_refl.
Qed.

Lemma transitionAll_same (w1 w2 : W) (inputs : list event) :
  sameMachine w1 w2 →
  let r1 := Concrete.transitionAll w1 inputs in
  let r2 := Concrete.transitionAll w2 inputs in
  r1.2 = r2.2
  ∧ sameMachine r1.1 r2.1
  ∧ sameGrowth (Concrete.savedHiddenTrace w1) (Concrete.savedHiddenTrace w2)
               (Concrete.savedHiddenTrace r1.1)
               (Concrete.savedHiddenTrace r2.1)
  ∧ sameGrowth (Concrete.savedTrace w1) (Concrete.savedTrace w2)
               (Concrete.savedTrace r1.1) (Concrete.savedTrace r2.1).
Proof.
  revert w1 w2. induction inputs as [|input inputs IH]; intros w1 w2 Hm;
    simpl.
  - split_and!; [done | done | apply sameGrowth_refl ..].
  - destruct (transition_same w1 w2 input Hm) as (Hres & Hm1 & Hh & Hv).
    simpl in Hres, Hm1, Hh, Hv.
    destruct (Concrete.transition w1 input) as [u1 [e1 p1]].
    destruct (Concrete.transition w2 input) as [u2 [e2 p2]].
    simpl in *. injection Hres as <- <-.
    destruct e1 as [e1|], p1 as [p1|]; simpl; try (split_and!; done).
    destruct (IH u1 u2 Hm1) as (Hres' & Hm' & Hh' & Hv').
    split_and!; [done | done | |].
    + eapply sameGrowth_trans; [exact Hh | exact Hh'].
    + eapply sameGrowth_trans; [exact Hv | exact Hv'].
Qed.

(** X14.  What the wrapped machine does under [transitionAll] does not
    depend on the traces the adapter holds.  Two adapters that wrap the
    same listener, router and player context, whatever their traces,
    report the same results for the same inputs, leave the machine in the
    same state, and get the same events appended to their hidden and to
    their visible traces.  So [resetTrace] before a run changes nothing but
    the traces. *)
Theorem traces_do_not_steer (w1 w2 : W) (inputs : list event) :
  sameMachine w1 w2 →
  let r1 := Concrete.transitionAll w1 inputs in
  let r2 := Concrete.transitionAll w2 inputs in
  r1.2 = r2.2
  ∧ sameMachine r1.1 r2.1
  ∧ sameGrowth (Concrete.savedHiddenTrace w1) (Concrete.savedHiddenTrace w2)
               (Concrete.savedHiddenTrace r1.1)
               (Concrete.savedHiddenTrace r2.1)
  ∧ sameGrowth (Concrete.savedTrace w1) (Concrete.savedTrace w2)
               (Concrete.savedTrace r1.1) (Concrete.savedTrace r2.1)
  ∧ sameMachine (Concrete.resetTrace w1) w1.
Proof.
  intros Hm. destruct (transitionAll_same w1 w2 inputs Hm)
    as (H1 & H2 & H3 & H4).
  split_and!; done.
Qed.
End TracesDoNotSteer.

Lemma traces_do_not_steer_witness :
  (Concrete.transitionAll (Concrete.resetTrace Fixtures.advancedConcrete)
     [Fixtures.evPayloadPresent; Fixtures.evBundleMalformed]).2
  = (Concrete.transitionAll Fixtures.advancedConcrete
       [Fixtures.evPayloadPresent; Fixtures.evBundleMalformed]).2.
Proof.
  apply (traces_do_not_steer
           (Concrete.resetTrace Fixtures.advancedConcrete)
           Fixtures.advancedConcrete).
  repeat split.
Defined.

(** ** What the hidden trace records *)

Section RecordedOutputs.
Context {P D L R : Type} `{!Listener P D L, !Router D R}.

Local Abbreviation W := (Concrete.ioAutomataConcrete P L R).

Lemma handlerCall_same (w1 w2 : W) (input : event) :
  sameMachine w1 w2 →
  (handlerCall (D:=D) w1 input).2 = (handlerCall (D:=D) w2 input).2
  ∧ sameMachine (handlerCall (D:=D) w1 input).1
                (handlerCall (D:=D) w2 input).1.
Proof.
  intros (Hl & Hr & Hp). unfold handlerCall.
  destruct (withHandle_fields w1) as (Hl1 & Hr1 & Hp1 & _).
  destruct (withHandle_fields w2) as (Hl2 & Hr2 & Hp2 & _).
  rewrite Hl1, Hp1, Hl2, Hp2, Hl, Hp.
  destruct (runHandler_same
              (handle (Concrete.listener w2) (Concrete.playerCtx w2) input)
              (Concrete.withHandle w1) (Concrete.withHandle w2)
              ltac:(congruence) ltac:(congruence)) as (Ho & Hm & _).
  done.
Qed.

Lemma handlerOutputs_same (inputs : list event) : ∀ (w1 w2 : W),
  sameMachine w1 w2 →
  handlerOutputs (D:=D) w1 inputs = handlerOutputs (D:=D) w2 inputs.
Proof.
  induction inputs as [|input inputs IH]; intros w1 w2 Hm; simpl; [done |].
  destruct (handlerCall_same w1 w2 input Hm) as [Ho Hm'].
  destruct (handlerCall w1 input) as [u1 o1].
  destruct (handlerCall w2 input) as [u2 o2].
  simpl in Ho, Hm'. subst o2. destruct o1 as [out|v]; [| done].
  by rewrite (IH u1 u2 Hm').
Qed.

Lemma handlerOutputs_length (inputs : list event) : ∀ (w : W) outs p,
  handlerOutputs (D:=D) w inputs = (outs, p) →
  length outs ≤ length inputs
  ∧ (p = None ↔ length outs = length inputs).
Proof.
  induction inputs as [|input inputs IH]; intros w outs p; simpl.
  - intros [= <- <-]. done.
  - destruct (handlerCall w input) as [w1 [out|v]].
    + destruct (handlerOutputs w1 inputs) as [outs' p'] eqn:Hrest.
      intros [= <- <-]. destruct (IH _ _ _ Hrest) as [Hlen Hiff].
      simpl. split; [lia |]. rewrite Hiff. lia.
    + intros [= <- <-]. simpl. split; [lia |]. split; [done | lia].
Qed.

Lemma transitionAll_handled (inputs : list event) : ∀ (w : W) outs p,
  handlerOutputs (D:=D) w inputs = (outs, p) →
  ∃ w',
    Concrete.transitionAll w inputs = (w', (None, errHandlerPanic <$> p))
    ∧ events (Concrete.savedHiddenTrace w')
      = events (Concrete.savedHiddenTrace w) ++ interleave inputs outs.
Proof.
  induction inputs as [|input inputs IH]; intros w outs p; simpl.
  - intros [= <- <-]. exists w. by rewrite app_nil_r.
  - rewrite transition_unfold. unfold handlerCall. simpl.
    destruct (Concrete.runHandler _ _) as [w1 [out|v]] eqn:Hrun;
      apply runHandler_traces in Hrun as [Hh _];
      rewrite (proj1 (proj2 (proj2 (proj2 (withHandle_fields w))))) in Hh.
    + destruct (handlerOutputs w1 inputs) as [outs' p'] eqn:Hrest.
      intros [= <- <-].
      match goal with
      | |- context [Concrete.transitionAll ?u inputs] =>
          assert (handlerOutputs (D:=D) u inputs = (outs', p')) as Hrest'
            by (rewrite <- Hrest; apply handlerOutputs_same; by repeat split);
          destruct (IH u _ _ Hrest') as (w' & Hall & Hhidden)
      end.
      exists w'. split; [exact Hall |].
      rewrite Hhidden. simpl. rewrite Hh, <- !app_assoc. done.
    + intros [= <- <-]. exists w1. simpl. by rewrite app_nil_r, Hh.
Qed.

(** X11.  Let the handler of the single-listener adapter, called on the
    inputs one after the other, return the events [outs] and then either
    come to the end of the inputs or panic with [p].  Then [transitionAll]
    returns, with no ordinary error and with the panic error made from [p]
    (none if the handler did not panic), and the hidden trace is the trace
    the adapter had, followed by each handled input with the event the
    handler returned for it: input, output, input, output.  The input on
    which the handler panicked, and the inputs after it, are not in the
    trace.  All inputs are handled exactly when no panic is reported, and
    the trace grows by two events for each handled input. *)
Theorem transitionAll_hidden_trace (w : W) (inputs outs : list event)
    (p : option string) :
  handlerOutputs (D:=D) w inputs = (outs, p) →
  ∃ w',
    transitionAll w inputs = Ok (w', (None, errHandlerPanic <$> p))
    ∧ getTrace w'
      = Ok {| events := events (Concrete.savedHiddenTrace w)
                        ++ interleave inputs outs |}
    ∧ length outs ≤ length inputs
    ∧ (p = None ↔ length outs = length inputs)
    ∧ ioTrace_length (Concrete.savedHiddenTrace w')
      = ioTrace_length (Concrete.savedHiddenTrace w) + 2 * length outs.
Proof.
  intros Hout.
  destruct (handlerOutputs_length _ _ _ _ Hout) as [Hlen Hiff].
  apply transitionAll_handled in Hout as (w' & Hall & Hhidden).
  exists w'. simpl. rewrite Hall. split_and!; try done.
  - unfold Concrete.getTrace. rewrite <- Hhidden.
    by destruct (Concrete.savedHiddenTrace w').
  - unfold ioTrace_length. rewrite Hhidden, length_app.
    rewrite interleave_length by done. lia.
Qed.
End RecordedOutputs.

(** The listener of the fixtures returns [newRound] on the first input and
    panics on the second: the third input is not handled, and the trace
    holds the first input and its output only. *)
Lemma transitionAll_hidden_trace_witness :
  handlerOutputs (D:=unit) Fixtures.freshConcrete
    [Fixtures.evTimeout; Fixtures.evBundleMalformed; Fixtures.evTimeout]
  = ([Fixtures.evNewRound], Some "malformed bundle")
  ∧ ∃ w',
      transitionAll Fixtures.freshConcrete
        [Fixtures.evTimeout; Fixtures.evBundleMalformed; Fixtures.evTimeout]
      = Ok (w', (None, Some (errHandlerPanic "malformed bundle")))
      ∧ getTrace w'
        = Ok {| events := [Fixtures.evTimeout; Fixtures.evNewRound] |}.
Proof.
  split; [reflexivity |].
  assert (handlerOutputs (D:=unit) Fixtures.freshConcrete
            [Fixtures.evTimeout; Fixtures.evBundleMalformed;
             Fixtures.evTimeout]
          = ([Fixtures.evNewRound], Some "malformed bundle")) as Hout
    by reflexivity.
  destruct (transitionAll_hidden_trace _ _ _ _ Hout)
    as (w' & Hall & Htrace & _).
  exists w'. split; [exact Hall | exact Htrace].
Defined.

(** ** Runs of the network adapter *)

Section PlayerRuns.
Context {N : Type} `{!RootRouter N}.

Local Abbreviation W := (ConcretePlayer.ioAutomataConcretePlayer N).

(** X15.  A [transition] of the network adapter returns in every state
    and on every input, without ordinary error, and leaves a trace that
    [getTrace] can read, also on an adapter whose trace pointer was nil.
    What it returns follows what [submitTop] did on the adapter's router,
    called with the adapter's tracer (a new one if the pointer was nil).
    When [submitTop] returns [actions], both results are nil, and the trace
    is the trace held before followed by the input and by one wrapped
    event per action, [ev a] for each [a] of [actions] in their order; the
    count of [countAction] grows by the number of actions if the input
    itself is not a wrapped action.  When [submitTop] panics with [v], the
    panic error is the one made from [v] and the trace keeps the events it
    had: on a new adapter it is then the empty trace.  In both cases the
    adapter holds the router as [submitTop] left it. *)
Theorem player_transition_trace (w : W) (input : event) :
  let call := submitTop (ConcretePlayer.rootRouter w)
                (Some (default newTracer (ConcretePlayer.t w))) input in
  (∀ n actions, call = (n, Returns actions) →
     ∃ w', transition w input = Ok (w', (None, None))
       ∧ ConcretePlayer.rootRouter w' = n
       ∧ getTrace w'
         = Ok {| events := events (heldTrace w)
                           ++ input :: (ev <$> actions) |}
       ∧ ∀ o k, input = Some o → evt o ≠ wrappedAction →
           ioTrace_countAction (heldTrace w) = Ok k →
           ioTrace_countAction (heldTrace w') = Ok (k + length actions))
  ∧ (∀ n v, call = (n, Panics v) →
     ∃ w', transition w input
           = Ok (w', (None, Some (errSubmitTopPanic v)))
       ∧ ConcretePlayer.rootRouter w' = n
       ∧ getTrace w' = Ok (heldTrace w))
  ∧ ∃ w' panicErr, transition w input = Ok (w', (None, panicErr))
      ∧ is_Some (ConcretePlayer.savedTrace w').
Proof.
  intros call. split_and!.
  - intros n actions Hcall. simpl. rewrite player_transition_unfold. simpl.
    fold (heldTrace w). fold call. rewrite Hcall.
    eexists. split; [reflexivity |]. split; [done |].
    unfold ConcretePlayer.getTrace, heldTrace at 3. simpl.
    rewrite <- app_assoc. split; [done |].
    intros o k -> Hty Hk. unfold ioTrace_countAction in *. simpl.
    destruct (decide (Forall is_Some (events (heldTrace w)))) as [Hwf|Hwf].
    + rewrite countAction_loop_well_formed in Hk by done.
      injection Hk as <-.
      rewrite countAction_loop_well_formed.
      * unfold wrappedActions.
        rewrite filter_app, filter_cons, decide_False by (simpl; congruence).
        fold (wrappedActions (ev <$> actions)).
        by rewrite wrappedActions_ev, length_app, length_fmap.
      * apply Forall_app. split; [done |]. constructor; [by eexists |].
        apply Forall_fmap, Forall_true. intros a. by eexists.
    + by rewrite countAction_loop_nil_event in Hk.
  - intros n v Hcall. simpl. rewrite player_transition_unfold. simpl.
    fold (heldTrace w). fold call. rewrite Hcall.
    eexists. split; [reflexivity |]. done.
  - apply player_transition_err_nil.
Qed.

Lemma player_transition_prefix (w w' : W) (input : event) r :
  ConcretePlayer.transition w input = Ok (w', r) →
  events (heldTrace w) `prefix_of` events (heldTrace w').
Proof.
  rewrite player_transition_unfold. simpl. fold (heldTrace w).
  destruct (submitTop _ _ input) as [n [actions|v]]; intros [= <- <-];
    unfold heldTrace at 2; simpl; [| done].
  rewrite <- app_assoc. by apply prefix_app_r.
Qed.

(** X16.  [transitionAll] of the network adapter on a list of inputs
    followed by another is [transitionAll] on the first list and then,
    unless that reports a panic, on the second list from the state
    reached.  It only ever appends: the events the adapter held before are
    the first events it holds afterwards. *)
Theorem player_transitionAll_app (w : W) (xs ys : list event) :
  ConcretePlayer.transitionAll w (xs ++ ys)
  = ('(w1, (err, panicErr)) ← ConcretePlayer.transitionAll w xs;
     match err, panicErr with
     | None, None => ConcretePlayer.transitionAll w1 ys
     | _, _ => Ok (w1, (err, panicErr))
     end)
  ∧ ∀ w' r, ConcretePlayer.transitionAll w xs = Ok (w', r) →
      events (heldTrace w) `prefix_of` events (heldTrace w').
Proof.
  split.
  - revert w. induction xs as [|x xs IH]; intros w; simpl.
    + by destruct (ConcretePlayer.transitionAll w ys) as [[w1 [err p]]|].
    + destruct (ConcretePlayer.transition w x) as [[w1 [[e|] [p|]]]|];
        simpl; auto.
  - revert w. induction xs as [|x xs IH]; intros w w' r; simpl.
    + by intros [= <- <-].
    + destruct (ConcretePlayer.transition w x) as [[w1 [e p]]|] eqn:Hstep;
        simpl; [| done].
      apply player_transition_prefix in Hstep.
      destruct e as [e|], p as [p|]; try (by intros [= <- <-]).
      intros Hrest. etrans; [exact Hstep | by eapply IH].
Qed.
End PlayerRuns.

(** The network of the fixtures answers one action on [timeout]: a new
    adapter, whose trace pointer is nil, then holds the input and the
    wrapped action. *)
Lemma player_transition_trace_witness :
  submitTop () (Some newTracer) Fixtures.evTimeout
  = ((), Returns [Fixtures.actNewRound])
  ∧ ∃ w', transition Fixtures.freshPlayer Fixtures.evTimeout
          = Ok (w', (None, None))
      ∧ getTrace w'
        = Ok {| events := [Fixtures.evTimeout; ev Fixtures.actNewRound] |}.
Proof.
  split; [reflexivity |].
  destruct (proj1 (player_transition_trace Fixtures.freshPlayer
                     Fixtures.evTimeout) () [Fixtures.actNewRound] eq_refl)
    as (w' & Hrun & _ & Htrace & _).
  exists w'. split; [exact Hrun | exact Htrace].
Defined.

Lemma player_transitionAll_app_witness :
  events (heldTrace Fixtures.freshPlayer)
    `prefix_of`
  events (heldTrace
            (ConcretePlayer.mk () (Some {| events := [Fixtures.evTimeout;
                                         ev Fixtures.actNewRound] |})
               (Some newTracer))).
Proof.
  eapply (proj2 (player_transitionAll_app Fixtures.freshPlayer
                   [Fixtures.evTimeout; Fixtures.evBundleMalformed] [])).
  reflexivity.
Defined.

(** ** Verdicts of the validator *)

Lemma checkSafetyProps_Ok sps tr inv rt :
  checkSafetyProps sps tr = Ok (inv, rt) →
  (inv = None ∧ rt = None)
  ∨ (inv = None ∧ rt = Some errSafetyPropEval)
  ∨ (∃ msg, inv = Some (errNotInSafetyProp msg) ∧ rt = None).
Proof.
  induction sps as [|sp sps IH]; simpl.
  - intros [= <- <-]. auto.
  - destruct (containsTrace sp tr) as [[[good msg] [e|]]|r]; simpl;
      [| | done].
    + intros [= <- <-]. auto.
    + destruct good; simpl; [apply IH |]. intros [= <- <-]. eauto.
Qed.

Lemma checkCrashExpectation_cases testCase panicErr :
  length (inputs testCase) = length (expectedOutputs testCase)
  ∨ length (inputs testCase) = length (expectedOutputs testCase) + 1 →
  match checkCrashExpectation testCase panicErr with
  | None =>
      (panicErr = None
       ∧ length (inputs testCase) = length (expectedOutputs testCase))
      ∨ (is_Some panicErr
         ∧ length (inputs testCase)
           = length (expectedOutputs testCase) + 1)
  | Some e =>
      (∃ p, panicErr = Some p ∧ e = errPanickedUnexpected p)
      ∨ (panicErr = None ∧ e = errDidNotPanic)
  end.
Proof.
  intros Hshape. unfold checkCrashExpectation.
  repeat case_decide; destruct panicErr; eauto; lia.
Qed.

Section ValidatorVerdicts.
Context {A : Type} `{!ioAutomata A}.

(** Where a run of the validator that returns has gone. *)
Lemma Validate_Ok_inv (testCase : determisticTraceTestCase) (a a' : A)
    (inv rt : error) :
  Validate testCase a = Ok (a', (inv, rt)) →
  (* refused for its shape *)
  (a' = a ∧ inv = None ∧ rt = Some errMalformedTestCase
   ∧ length (inputs testCase) ≠ length (expectedOutputs testCase)
   ∧ length (inputs testCase) ≠ length (expectedOutputs testCase) + 1)
  ∨ ((length (inputs testCase) = length (expectedOutputs testCase)
      ∨ length (inputs testCase) = length (expectedOutputs testCase) + 1)
     ∧ ∃ existing, getTrace a = Ok existing
     ∧ ((* refused for a nil expected event *)
        (a' = a ∧ inv = None
         ∧ rt = Some (errOutputsNil errTraceContainsNil)
         ∧ ¬ Forall is_Some (interleave (inputs testCase)
                                        (expectedOutputs testCase)))
        ∨ (Forall is_Some (interleave (inputs testCase)
                                      (expectedOutputs testCase))
           ∧ ∃ err panicErr,
               transitionAll a (inputs testCase) = Ok (a', (err, panicErr))
               ∧ ((* the automaton's own error *)
                  (is_Some err ∧ inv = None ∧ rt = err)
                  ∨ (err = None
                     ∧ ∃ outputTrace,
                         getTrace a' = Ok outputTrace
                         ∧ ioTrace_length existing
                           ≤ ioTrace_length outputTrace
                         ∧ ((* divergence *)
                            (rt = None
                             ∧ ∃ expected actual,
                                 inv = Some (errIOTraceDiverge expected
                                                               actual))
                            ∨ ((* crash expectation *)
                               rt = None
                               ∧ inv = checkCrashExpectation testCase
                                         panicErr
                               ∧ is_Some inv)
                            ∨ ((* length *)
                               checkCrashExpectation testCase panicErr
                               = None
                               ∧ rt = None
                               ∧ ioTrace_length outputTrace
                                 < 2 * length (expectedOutputs testCase)
                               ∧ ((∃ p n m, panicErr = Some p
                                     ∧ inv = Some (errPanickedEarly n m p))
                                  ∨ (∃ n m e x, panicErr = None
                                       ∧ inv = Some (errTraceTooShort
                                                       n m e x))))
                            ∨ ((* safety properties *)
                               checkCrashExpectation testCase panicErr
                               = None
                               ∧ checkSafetyProps (safetyProps testCase)
                                                  outputTrace
                                 = Ok (inv, rt)))))))).
Proof.
  unfold Validate, ValidateAsExtension.
  case_decide as Hshape.
  { intros [= <- <- <-]. left. split_and!; tauto. }
  assert (length (inputs testCase) = length (expectedOutputs testCase)
          ∨ length (inputs testCase) = length (expectedOutputs testCase) + 1)
    as Hok by lia.
  intros H. right. split; [exact Hok |].
  destruct (getTrace a) as [existing|] eqn:Hexisting; simpl in H; [| done].
  exists existing. split; [done |].
  rewrite fillAllEvents_spec in H by lia. simpl in H.
  unfold ioTrace_checkWellFormed in H. simpl in H.
  destruct (checkWellFormed_loop _) as [e|] eqn:Hwf.
  { injection H as <- <- <-. left.
    destruct (checkWellFormed_loop_cases
                (interleave (inputs testCase) (expectedOutputs testCase)))
      as [Hc | Hc]; [congruence |].
    rewrite Hc in Hwf. injection Hwf as <-. split_and!; try done.
    rewrite <- checkWellFormed_loop_None. congruence. }
  apply checkWellFormed_loop_None in Hwf. right. split; [exact Hwf |].
  destruct (transitionAll a (inputs testCase)) as [[a1 [err panicErr]]|];
    simpl in H; [| done].
  destruct err as [e|].
  { injection H as <- <- <-. exists (Some e), panicErr.
    split; [done |]. left. split_and!; [by eexists | done | done]. }
  destruct (getTrace a1) as [outputTrace|] eqn:Houtput; simpl in H;
    [| done].
  unfold sliceFrom in H.
  destruct (decide (length (events existing) ≤ length (events outputTrace)))
    as [Hlen|Hlen]; simpl in H; [| done].
  unfold directMatch_containsTrace in H. simpl in H.
  destruct (directMatch_loop _ _) as [[[valid info] rerr]|] eqn:Hdm;
    simpl in H; [| done].
  apply directMatch_loop_Ok in Hdm as [-> ->].
  destruct valid; simpl in H.
  - destruct (checkCrashExpectation testCase panicErr) as [v|] eqn:Hcrash.
    + injection H as <- <- <-. exists None, panicErr. split; [done |].
      right. split; [done |]. exists outputTrace.
      split_and!; [done | exact Hlen |]. right. left.
      split_and!; [done | done | by eexists].
    + unfold ioTrace_length in H. simpl in H.
      rewrite interleave_length in H by lia.
      case_decide as Hshort.
      * exists None, panicErr. split;
          [destruct panicErr; by injection H as <- <- <- |].
        right. split; [done |]. exists outputTrace.
        assert (a' = a1 ∧ rt = None) as [-> ->]
          by (destruct panicErr; by injection H as <- <- <-).
        split_and!; [done | exact Hlen |]. right. right. left.
        split_and!; [done | done | exact Hshort |].
        destruct panicErr; injection H as <-; [left | right]; eauto 10.
      * destruct (checkSafetyProps _ _) as [[inv' rt']|] eqn:Hsp;
          simpl in H; [| done].
        injection H as <- <- <-. exists None, panicErr. split; [done |].
        right. split; [done |]. exists outputTrace.
        split_and!; [done | exact Hlen |]. right. right. right.
        by split.
  - destruct (ioTrace_String {| events := interleave _ _ |}) as [s1|];
      simpl in H; [| done].
    destruct (ioTrace_String _) as [s2|]; simpl in H; [| done].
    injection H as <- <- <-. exists None, panicErr. split; [done |].
    right. split; [done |]. exists outputTrace.
    split_and!; [done | exact Hlen |]. left. split; [done |]. eauto.
Qed.

(** X17.  When the validator returns, it never returns an invalid verdict
    together with a run-time error.  The invalid verdict is one of:
    divergence, panicked when not expected, did not panic when expected,
    panicked early, trace too short, trace not in a safety property; the
    error about inconsistent sizes is never returned.  The run-time error
    is the malformed-test-case error, the error about nil expected events,
    the error of evaluating a safety property, or the ordinary error that
    [transitionAll] returned. *)
Theorem Validate_verdict_or_error (testCase : determisticTraceTestCase)
    (a a' : A) (inv rt : error) :
  Validate testCase a = Ok (a', (inv, rt)) →
  (inv = None ∨ rt = None)
  ∧ (∀ e, inv = Some e → isVerdict e)
  ∧ (∀ e, rt = Some e →
       e = errMalformedTestCase
       ∨ e = errOutputsNil errTraceContainsNil
       ∨ e = errSafetyPropEval
       ∨ ∃ a1 p, transitionAll a (inputs testCase)
                 = Ok (a1, (Some e, p))).
Proof.
  intros H. apply Validate_Ok_inv in H
    as [(-> & -> & -> & _)
       | (Hshape & existing & _ &
          [(-> & -> & -> & _)
          | (_ & err & panicErr & Hrun &
             [([e He] & -> & ->)
             | (-> & outputTrace & _ & _ &
                [(-> & s1 & s2 & ->)
                | [(-> & Hinv & _)
                  | [(Hcrash & -> & _ &
                       [(p & n & m & -> & ->) | (n & m & e & x & -> & ->)])
                    | (Hcrash & Hsp)]]])])])].
  - split_and!; [auto | done | intros e [= <-]; auto].
  - split_and!; [auto | done | intros e [= <-]; auto].
  - subst err. split_and!; [auto | done |].
    intros e' [= <-]. right. right. right. eauto.
  - split_and!; [auto | by intros e [= <-] | done].
  - split_and!; [auto | | done]. intros e He.
    pose proof (checkCrashExpectation_cases testCase panicErr Hshape) as Hc.
    rewrite <- Hinv, He in Hc.
    destruct Hc as [(p & _ & ->) | [_ ->]]; done.
  - split_and!; [auto | by intros e [= <-] | done].
  - split_and!; [auto | by intros e' [= <-] | done].
  - apply checkSafetyProps_Ok in Hsp
      as [[-> ->] | [[-> ->] | (msg & -> & ->)]].
    + split_and!; [auto | done | done].
    + split_and!; [auto | done | intros e [= <-]; auto].
    + split_and!; [auto | by intros e [= <-] | done].
Qed.

(** X18.  A test case of a valid shape in which one of the expected
    outputs, or one of the inputs that has an expected output, is nil is
    refused with the run-time error about nil events before the automaton
    is driven: the automaton is returned as it was.  The input without an
    expected output, on which a panic is expected, is not looked at. *)
Theorem Validate_nil_expected_event (testCase : determisticTraceTestCase)
    (a : A) (existing : ioTrace) :
  length (inputs testCase) = length (expectedOutputs testCase)
  ∨ length (inputs testCase) = length (expectedOutputs testCase) + 1 →
  getTrace a = Ok existing →
  ¬ (Forall is_Some (take (length (expectedOutputs testCase))
                          (inputs testCase))
     ∧ Forall is_Some (expectedOutputs testCase)) →
  Validate testCase a
  = Ok (a, (None, Some (errOutputsNil errTraceContainsNil))).
Proof.
  intros Hshape Hexisting Hnil. unfold Validate, ValidateAsExtension.
  rewrite decide_False by lia. rewrite Hexisting. simpl.
  rewrite fillAllEvents_spec by lia. simpl.
  unfold ioTrace_checkWellFormed. simpl.
  destruct (checkWellFormed_loop_cases
              (interleave (inputs testCase) (expectedOutputs testCase)))
    as [Hc | ->]; [| done].
  apply checkWellFormed_loop_None, interleave_wf in Hc; [done | lia].
Qed.
End ValidatorVerdicts.

Lemma Validate_verdict_or_error_witness :
  isVerdict (errPanickedUnexpected (errHandlerPanic "malformed bundle")).
Proof.
  assert (Validate Fixtures.panicNotExpected Fixtures.freshConcrete
          = Ok ((Concrete.transitionAll Fixtures.freshConcrete
                   (inputs Fixtures.panicNotExpected)).1,
                (Some (errPanickedUnexpected
                         (errHandlerPanic "malformed bundle")), None)))
    as Hrun by reflexivity.
  exact (proj1 (proj2 (Validate_verdict_or_error _ _ _ _ _ Hrun))
           _ eq_refl).
Defined.

Lemma Validate_nil_expected_event_witness :
  @Validate _ Concrete.automaton
    {| inputs := [Fixtures.evTimeout; None];
       expectedOutputs := [Fixtures.evNewRound; Fixtures.evNewRound];
       safetyProps := [] |} Fixtures.freshConcrete
  = Ok (Fixtures.freshConcrete,
        (None, Some (errOutputsNil errTraceContainsNil))).
Proof.
  apply (Validate_nil_expected_event _ Fixtures.freshConcrete emptyTrace).
  - left. reflexivity.
  - reflexivity.
  - intros [Hins _]. simpl in Hins.
    apply Forall_cons in Hins as [_ Hins].
    apply Forall_cons in Hins as [[x Hx] _]. discriminate.
Defined.

Lemma interleave_lookup ins outs i :
  length outs ≤ length ins → i < length outs →
  interleave ins outs !! (2 * i) = ins !! i
  ∧ interleave ins outs !! (2 * i + 1) = outs !! i.
Proof.
  revert ins outs. induction i as [|i IH]; intros [|x ins] [|y outs];
    simpl; try lia; intros Hlen Hi; [done |].
  replace (i + S (i + 0)) with (S (2 * i)) by lia.
  replace (i + S (i + 0) + 1) with (S (2 * i + 1)) by lia.
  simpl. apply IH; lia.
Qed.

(** X19.  For a test case with at least as many inputs as expected
    outputs, the loop that fills the expected trace returns, and the trace
    has two events for each expected output: input [i] at index [2i] and
    expected output [i] at index [2i+1].  An input beyond the expected
    outputs is not part of it, so the trace is well formed exactly when
    the expected outputs and the inputs that have one are not nil. *)
Theorem expected_trace_interleaves (testCase : determisticTraceTestCase) :
  length (expectedOutputs testCase) ≤ length (inputs testCase) →
  ∃ allEvents,
    fillAllEvents testCase = Ok allEvents
    ∧ length allEvents = 2 * length (expectedOutputs testCase)
    ∧ (∀ i, i < length (expectedOutputs testCase) →
         allEvents !! (2 * i) = inputs testCase !! i
         ∧ allEvents !! (2 * i + 1) = expectedOutputs testCase !! i)
    ∧ (ioTrace_checkWellFormed {| events := allEvents |} = None
       ↔ Forall is_Some (take (length (expectedOutputs testCase))
                              (inputs testCase))
         ∧ Forall is_Some (expectedOutputs testCase)).
Proof.
  intros Hshape. eexists. split_and!.
  - by apply fillAllEvents_spec.
  - by apply interleave_length.
  - intros i Hi. by apply interleave_lookup.
  - unfold ioTrace_checkWellFormed. simpl.
    rewrite checkWellFormed_loop_None. by apply interleave_wf.
Qed.

Lemma expected_trace_interleaves_witness :
  ∃ allEvents,
    fillAllEvents Fixtures.panicExpected = Ok allEvents
    ∧ length allEvents = 2.
Proof.
  destruct (expected_trace_interleaves Fixtures.panicExpected)
    as (allEvents & Hfill & Hlen & _); [simpl; lia |].
  exists allEvents. split; [exact Hfill | exact Hlen].
Defined.

(** ** The safety properties of a test case *)

(** X20.  The safety properties of a test case are asked in order, and the
    first that does not accept decides: if it rejects, the verdict carries
    its message, and if it reports an error, the run-time error says that
    a property could not be evaluated.  The properties after it are not
    asked.  If all accept there is no verdict and no error. *)
Theorem checkSafetyProps_first_decides (accepted rest : list ioSafetyProp)
    (sp : ioSafetyProp) (tr : ioTrace) :
  Forall (accepts tr) accepted →
  checkSafetyProps accepted tr = Ok (None, None)
  ∧ (∀ msg, containsTrace sp tr = Ok (false, msg, None) →
       checkSafetyProps (accepted ++ sp :: rest) tr
       = Ok (Some (errNotInSafetyProp msg), None))
  ∧ (∀ good msg e, containsTrace sp tr = Ok (good, msg, Some e) →
       checkSafetyProps (accepted ++ sp :: rest) tr
       = Ok (None, Some errSafetyPropEval))
  ∧ (∀ r, containsTrace sp tr = Panic r →
       checkSafetyProps (accepted ++ sp :: rest) tr = Panic r).
Proof.
  induction 1 as [|sp0 sps [msg0 Hsp0] _ (IH1 & IH2 & IH3 & IH4)]; simpl.
  - split_and!; [done | | |].
    + by intros msg ->.
    + by intros good msg e ->.
    + by intros r ->.
  - rewrite Hsp0. simpl. split_and!; done.
Qed.

Lemma checkSafetyProps_first_decides_witness :
  checkSafetyProps ([ioPropAll] ++ Fixtures.rejectAll
                      :: [{| containsTrace := λ _, Panic "not asked" |}])
                   emptyTrace
  = Ok (Some (errNotInSafetyProp "rejected"), None).
Proof.
  apply (proj1 (proj2 (checkSafetyProps_first_decides [ioPropAll] _
                         Fixtures.rejectAll emptyTrace
                         ltac:(repeat constructor; by exists "")))).
  reflexivity.
Defined.

(** ** The validator on the single-listener adapter *)

Lemma checkSafetyProps_returns sps tr :
  Forall (λ sp, ∃ x, containsTrace sp tr = Ok x) sps →
  ∃ verdict, checkSafetyProps sps tr = Ok verdict.
Proof.
  induction 1 as [|sp sps [[[good msg] err] Hsp] _ IH]; simpl; [eauto |].
  rewrite Hsp. simpl. destruct err; [eauto |]. destruct good; simpl; eauto.
Qed.

Section ConcreteValidation.
Context {P D L R : Type} `{!Listener P D L, !Router D R}.

Local Abbreviation W := (Concrete.ioAutomataConcrete P L R).


(** X22.  On the single-listener adapter the validator never gives the
    verdict "trace too short": without a panic every input has put its
    two events on the hidden trace. *)
Theorem single_listener_never_too_short
    (testCase : determisticTraceTestCase) (w w' : W) (inv rt : error) :
  Validate testCase w = Ok (w', (inv, rt)) →
  ∀ n m e x, inv ≠ Some (errTraceTooShort n m e x).
Proof.
  intros H n m e x ->. apply Validate_Ok_inv in H
    as [(_ & [=] & _)
       | (Hshape & existing & Hexisting &
          [(_ & [=] & _)
          | (_ & err & panicErr & Hrun &
             [(_ & [=] & _)
             | (-> & outputTrace & Houtput & _ &
                [(_ & s1 & s2 & [=])
                | [(_ & Hinv & _)
                  | [(Hcrash & _ & Hshort &
                       [(p & n' & m' & _ & [=])
                       | (n' & m' & e' & x' & -> & _)])
                    | (_ & Hsp)]]])])])].
  - pose proof (checkCrashExpectation_cases testCase panicErr Hshape) as Hc.
    rewrite <- Hinv in Hc. destruct Hc as [(p & _ & [=]) | [_ [=]]].
  - pose proof (checkCrashExpectation_cases testCase None Hshape) as Hc.
    rewrite Hcrash in Hc. destruct Hc as [[_ Heq] | [[? [=]] _]].
    simpl in Hrun, Houtput, Hexisting.
    injection Hrun as Hrun. injection Houtput as <-.
    apply transitionAll_hidden in Hrun as (outs & Hhidden & _ & Hiff).
    unfold ioTrace_length, Concrete.getTrace in Hshort.
    rewrite Hhidden, length_app, interleave_length in Hshort
      by (rewrite (proj1 Hiff); done).
    rewrite (proj1 Hiff) in Hshort by done. lia.
  - apply checkSafetyProps_Ok in Hsp
      as [[[=] _] | [[[=] _] | (msg & [=] & _)]].
Qed.

End ConcreteValidation.



Lemma single_listener_never_too_short_witness :
  Some (errPanickedEarly 0 2 (errHandlerPanic "malformed bundle"))
  ≠ Some (errTraceTooShort 0 2 emptyTrace emptyTrace).
Proof.
  assert (Validate Fixtures.panicEarly Fixtures.freshConcrete
          = Ok ((Concrete.transitionAll Fixtures.freshConcrete
                   (inputs Fixtures.panicEarly)).1,
                (Some (errPanickedEarly 0 2
                         (errHandlerPanic "malformed bundle")), None)))
    as Hrun by reflexivity.
  exact (single_listener_never_too_short _ _ _ _ _ Hrun
           0 2 emptyTrace emptyTrace).
Defined.

(** ** The test-case builder *)

Lemma Build_apply (b : Builder.testCaseBuilder) (c : Builder.call) :
  Builder.Build (Builder.apply b c)
  = {| inputs := inputs (Builder.Build b) ++ (pairsOf [c]).*1;
       expectedOutputs :=
         expectedOutputs (Builder.Build b) ++ (pairsOf [c]).*2;
       safetyProps := safetyProps (Builder.Build b) ++ propsOf [c] |}.
Proof.
  destruct b as [[ins|] [outs|] [props|]], c as [i o | p]; simpl;
    unfold Builder.Build, Builder.AddInOutPair, Builder.AddSafetyProp;
    simpl; by rewrite ?app_nil_r.
Qed.

Lemma Build_calls (cs : list Builder.call) : ∀ b,
  Builder.Build (foldl Builder.apply b cs)
  = {| inputs := inputs (Builder.Build b) ++ (pairsOf cs).*1;
       expectedOutputs :=
         expectedOutputs (Builder.Build b) ++ (pairsOf cs).*2;
       safetyProps := safetyProps (Builder.Build b) ++ propsOf cs |}.
Proof.
  induction cs as [|c cs IH]; intros b; simpl.
  - unfold Builder.Build. simpl. by rewrite !app_nil_r.
  - rewrite IH, Build_apply. simpl.
    destruct c as [i o | p]; simpl; by rewrite <- ?app_assoc, ?app_nil_r.
Qed.

(** X24.  The test case built after any sequence of calls on an empty
    builder holds the inputs, the expected outputs and the safety
    properties in the order in which they were added, nil events
    included.  It has as many inputs as expected outputs: it passes the
    test on the shape, and it never expects a panic, so that a panic of
    the automaton is an invalid verdict for it. *)
Theorem built_test_case (cs : list Builder.call) :
  let testCase := Builder.Build (foldl Builder.apply Builder.empty cs) in
  inputs testCase = (pairsOf cs).*1
  ∧ expectedOutputs testCase = (pairsOf cs).*2
  ∧ safetyProps testCase = propsOf cs
  ∧ length (inputs testCase) = length (expectedOutputs testCase)
  ∧ checkCrashExpectation testCase None = None
  ∧ ∀ p, checkCrashExpectation testCase (Some p)
         = Some (errPanickedUnexpected p).
Proof.
  cbv zeta. rewrite Build_calls.
  set (testCase := mkTestCase _ _ _).
  assert (length (inputs testCase) = length (expectedOutputs testCase))
    as Hlen by (simpl; by rewrite !length_fmap).
  split_and!; try done.
  - unfold checkCrashExpectation. by rewrite decide_True.
  - intros p. unfold checkCrashExpectation. by rewrite decide_True.
Qed.

(** ** The names of the event types *)

Lemma eventType_String_ident (c : eventType) :
  eventType_String (eventType_code c) = Ok (eventType_ident c).
Proof. destruct c; vm_compute; reflexivity. Qed.

Lemma eventType_code_range (c : eventType) :
  (0 ≤ eventType_code c < 42)%Z.
Proof. destruct c; simpl; lia. Qed.

Lemma eventType_code_inj (c1 c2 : eventType) :
  eventType_code c1 = eventType_code c2 → c1 = c2.
Proof. destruct c1, c2; simpl; intros H; first [done | lia]. Qed.

Lemma eventType_ident_inj (c1 c2 : eventType) :
  eventType_ident c1 = eventType_ident c2 → c1 = c2.
Proof.
  intros H.
  destruct (decide (c1 = c2)) as [|Hne]; [done |]. exfalso.
  revert H. destruct c1, c2; try done; vm_compute; discriminate.
Qed.

Lemma eventType_of_number (n : nat) :
  n < 42 → ∃ c, eventTypes !! n = Some c ∧ eventType_code c = Z.of_nat n.
Proof.
  intros Hn.
  do 42 (destruct n as [|n]; [eexists; split; reflexivity |]). lia.
Qed.

Lemma eventType_String_outside (i : Z) :
  (i < 0 ∨ 42 ≤ i)%Z →
  eventType_String i = Ok ("eventType(" +:+ pretty i +:+ ")").
Proof.
  intros Hi. unfold eventType_String.
  rewrite decide_True; [done |].
  by replace (Z.of_nat (length _eventType_index) - 1)%Z with 42%Z.
Qed.

Lemma eventType_ident_not_number (c : eventType) (s : string) :
  eventType_ident c ≠ "eventType(" +:+ s.
Proof. destruct c; simpl; discriminate. Qed.

Lemma string_length_app (s1 s2 : string) :
  String.length (s1 +:+ s2) = String.length s1 + String.length s2.
Proof. induction s1 as [|a s1 IH]; simpl; [done | by rewrite IH]. Qed.

Lemma string_app_inv_tail (s1 s2 t : string) :
  s1 +:+ t = s2 +:+ t → s1 = s2.
Proof.
  revert s2. induction s1 as [|a s1 IH]; intros [|b s2] H; simpl in *.
  - done.
  - apply (f_equal String.length) in H.
    rewrite !string_length_app in H. simpl in H. lia.
  - apply (f_equal String.length) in H.
    rewrite !string_length_app in H. simpl in H. lia.
  - injection H as -> H. f_equal. by apply IH.
Qed.

(** X25.  [String] gives each of the 42 event types the name of its
    constant, and every other number the text [eventType(N)] with the
    number in decimal; no two numbers get the same text.  The index table
    has one entry more than there are event types, and its last entry is
    the length of the table of names. *)
Theorem eventType_String_names :
  (∀ c, eventType_String (eventType_code c) = Ok (eventType_ident c))
  ∧ (∀ i, (i < 0 ∨ 42 ≤ i)%Z →
       eventType_String i = Ok ("eventType(" +:+ pretty i +:+ ")"))
  ∧ (∀ i j, eventType_String i = eventType_String j → i = j)
  ∧ length _eventType_index = S (length eventTypes)
  ∧ last _eventType_index = Some (String.length _eventType_name).
Proof.
  split_and!; [apply eventType_String_ident | apply eventType_String_outside
              | | reflexivity | reflexivity].
  assert (∀ i, (0 ≤ i < 42)%Z → ∃ c, i = eventType_code c) as Hin.
  { intros i Hi. destruct (eventType_of_number (Z.to_nat i)) as (c & _ & Hc);
      [lia |]. exists c. lia. }
  intros i j.
  destruct (decide (0 ≤ i < 42)%Z) as [Hi|Hi],
           (decide (0 ≤ j < 42)%Z) as [Hj|Hj].
  - destruct (Hin i Hi) as [ci ->]. destruct (Hin j Hj) as [cj ->].
    rewrite !eventType_String_ident. intros [= H].
    by apply eventType_ident_inj in H as ->.
  - destruct (Hin i Hi) as [ci ->].
    rewrite eventType_String_ident, eventType_String_outside by lia.
    intros [= H]. by apply eventType_ident_not_number in H.
  - destruct (Hin j Hj) as [cj ->].
    rewrite eventType_String_ident, eventType_String_outside by lia.
    intros [= H]. symmetry in H. by apply eventType_ident_not_number in H.
  - rewrite !eventType_String_outside by lia. intros [= H].
    apply (inj (String.app "")), string_app_inv_tail in H.
    by apply (inj pretty).
Qed.

Lemma eventType_String_names_witness :
  eventType_String 42 = Ok "eventType(42)"
  ∧ eventType_String (eventType_code wrappedAction) = Ok "wrappedAction".
Proof.
  destruct eventType_String_names as (Hnames & Houtside & _).
  split.
  - apply (Houtside 42%Z). right. lia.
  - apply (Hnames wrappedAction).
Defined.
